(** * Meeting transcription session engine

    A shallow embedding of [server/src/handlers/transcribe_meeting.ts]
    (the implemented handler, not the placeholder declaration that
    precedes it) and the properties its specification states about it.

    Layout of the development:
    - [Js]: the few JavaScript primitives the handler relies on
      (number division and comparison, truthiness, [String.trim]);
    - the data model: audio chunks, the request, the session record;
    - the pure helpers [processAudioChunk] and [shouldMarkAsFinal];
    - the stateful handler [transcribeMeetingChunk], split at its single
      suspension point into [enter] and [resume], over a world made of a
      heap of session objects, the module-level map
      [transcriptionSessions] and the pending timers;
    - the event loop as a step relation;
    - the theorems. *)

From Stdlib Require Import ZArith QArith String Ascii List Bool Lia.
From Stdlib Require Strings.Byte.
From stdpp Require Import base option gmap strings list relations.

Local Open Scope Z_scope.

(** ** JavaScript primitives *)

Module Js.

(** A JavaScript number, as far as this handler can produce one: byte
    sums and chunk counters are integers far below 2^53, and the only
    quotient taken is [dataSum / dataSize].  With an empty array this
    is [0 / 0], which is [NaN]; otherwise it is the quotient of two
    integers, kept exact here.  The handler only compares the quotient
    with the constants 10, 50, 100 and 150, and the correctly rounded
    double [s / n] is below such a constant exactly when the rational
    is, as long as [n < 2^46]: no array a runtime can allocate is
    longer. *)
Inductive number : Type :=
| NaN
| Fin (q : Q).

(** [s / n] for an integer [s] and an array length [n], where [s = 0]
    whenever [n = 0]. *)
Definition div_length (s : Z) (n : nat) : number :=
  match n with
  | O => NaN
  | S m => Fin (s # Pos.of_succ_nat m)
  end.

(** [a < c]: every comparison with [NaN] is false. *)
Definition lt (a : number) (c : Z) : bool :=
  match a with
  | NaN => false
  | Fin q => match (q ?= inject_Z c)%Q with Lt => true | _ => false end
  end.

(** Truthiness of a string: the empty string is the only falsy one. *)
Definition truthy (s : string) : bool :=
  match s with
  | EmptyString => false
  | String _ _ => true
  end.

(** White space removed by [String.prototype.trim], restricted to the
    code points below 128 (every token of the handler is ASCII). *)
Definition is_space (c : ascii) : bool :=
  let n := N_of_ascii c in
  ((9 <=? n) && (n <=? 13) || (n =? 32))%N.

Fixpoint trimStart (s : string) : string :=
  match s with
  | EmptyString => EmptyString
  | String c rest => if is_space c then trimStart rest else s
  end.

Fixpoint rev_onto (s acc : string) : string :=
  match s with
  | EmptyString => acc
  | String c rest => rev_onto rest (String c acc)
  end.

Definition reverse (s : string) : string := rev_onto s EmptyString.

Definition trim (s : string) : string :=
  reverse (trimStart (reverse (trimStart s))).

End Js.

(** ** Data model *)

(** [audio_chunk: ArrayBuffer | Uint8Array]: two representations of a
    sequence of bytes. *)
Inductive AudioChunk : Type :=
| ArrayBuffer (bytes : list Byte.byte)
| Uint8Array (bytes : list Byte.byte).

(** [input.audio_chunk instanceof ArrayBuffer ? input.audio_chunk.byteLength
    : input.audio_chunk.length] *)
Definition chunkSize (c : AudioChunk) : nat :=
  match c with
  | ArrayBuffer bytes => length bytes
  | Uint8Array bytes => length bytes
  end.

(** [input.audio_chunk instanceof ArrayBuffer ? new Uint8Array(input.audio_chunk)
    : input.audio_chunk]: in both cases a view on the same bytes. *)
Definition audioData (c : AudioChunk) : list Byte.byte :=
  match c with
  | ArrayBuffer bytes => bytes
  | Uint8Array bytes => bytes
  end.

(** The request.  The handler tests [!input.audio_chunk] and
    [!input.workspace_id], so both can be missing at run time; [None]
    stands for [undefined]. *)
Record TranscribeChunkInput : Type := {
  audio_chunk : option AudioChunk;
  workspace_id : option string;
  session_id : option string
}.

Module Result.
Record t : Type := mk {
  partial_transcript : string;
  session_id : string;
  is_final : bool
}.
End Result.

(** The value type of the map [transcriptionSessions]; [created_at] is
    a time stamp in milliseconds, [chunk_count] a number that only ever
    holds small non-negative integers. *)
Module Session.
Record t : Type := mk {
  workspace_id : string;
  accumulated_text : string;
  chunk_count : Z;
  created_at : Z
}.

#[global] Instance inhabited : Inhabited t :=
  populate (mk EmptyString EmptyString 0 0).
End Session.

(** ** The classifier *)

Definition byte_value (b : Byte.byte) : Z := Z.of_N (Byte.to_N b).

(** [audioData.reduce((sum, byte) => sum + byte, 0)] *)
Definition dataSum (audioData : list Byte.byte) : Z :=
  fold_left (fun sum b => sum + byte_value b) audioData 0.

(** [dataSum / dataSize] *)
Definition avgValue (audioData : list Byte.byte) : Js.number :=
  Js.div_length (dataSum audioData) (length audioData).

(** The body of [processAudioChunk] after its 10 ms delay. *)
Definition processAudioChunk (audioData : list Byte.byte) (chunkNumber : Z) : string :=
  let dataSize := length audioData in
  let avgValue := avgValue audioData in
  if (dataSize <? 100)%nat then ""
  else if Js.lt avgValue 50 then
    if chunkNumber =? 1 then "Hello" else "and"
  else if Js.lt avgValue 100 then
    if chunkNumber =? 1 then "Welcome" else "everyone"
  else if Js.lt avgValue 150 then
    if chunkNumber =? 1 then "Good morning" else "to the meeting"
  else
    if chunkNumber =? 1 then "Thank you" else "for joining us today".

Definition shouldMarkAsFinal (audioData : list Byte.byte) (chunkCount : Z) : bool :=
  if 5 <=? chunkCount then true
  else Js.lt (avgValue audioData) 10.

(** ** The world the handler runs in *)

(** Session objects live on a heap: the map [transcriptionSessions]
    holds references, and so does every suspended call, which keeps
    mutating its session object even after the map entry is deleted. *)
Definition loc : Type := positive.

(** What a call holds on to across [await processAudioChunk(...)]: the
    constants [sessionId] and [audioData], the reference [session], and
    the argument [chunkNumber], evaluated before the call suspends.  The
    bytes are those the caller passed; a caller that rewrites its buffer
    while the call is suspended is not modelled. *)
Module Pending.
Record t : Type := mk {
  sessionId : string;
  session : loc;
  audioData : list Byte.byte;
  chunkNumber : Z
}.
End Pending.

(** The two callbacks handed to [setTimeout]: the resolution of the
    10 ms promise, which resumes a suspended call, and
    [() => transcriptionSessions.delete(sessionId)]. *)
Inductive Task : Type :=
| Resume (k : Pending.t)
| Evict (sessionId : string).

Record World : Type := {
  heap : gmap loc Session.t;
  transcriptionSessions : gmap string loc;
  timers : list (Z * Task);     (* due time, callback *)
  clock : Z                     (* milliseconds *)
}.

Definition init : World :=
  {| heap := ∅; transcriptionSessions := ∅; timers := []; clock := 0 |}.

(** [setTimeout(task, delay)] *)
Definition setTimeout (task : Task) (delay : Z) (w : World) : World :=
  {| heap := heap w;
     transcriptionSessions := transcriptionSessions w;
     timers := timers w ++ [(clock w + delay, task)];
     clock := clock w |}.

(** In-place update of the session object at [l]. *)
Definition write (l : loc) (s : Session.t) (w : World) : World :=
  {| heap := <[l := s]> (heap w);
     transcriptionSessions := transcriptionSessions w;
     timers := timers w;
     clock := clock w |}.

(** [new Error(message)] *)
Inductive Error : Type :=
| MkError (message : string).

Definition message (e : Error) : string :=
  match e with MkError m => m end.

(** The two failures the specification names, told apart by message. *)
Definition InvalidInput (e : Error) : Prop :=
  message e = "Audio chunk is required and cannot be empty"
  ∨ message e = "Workspace ID is required".

Definition WorkspaceMismatch (e : Error) : Prop :=
  message e = "Session workspace_id mismatch".

(** ** The handler *)

(** [input.session_id || randomUUID()]; [uuid] is what [randomUUID()]
    returns if it is called. *)
Definition resolveSessionId (session_id : option string) (uuid : string) : string :=
  match session_id with
  | Some s => if Js.truthy s then s else uuid
  | None => uuid
  end.

(** [let session = transcriptionSessions.get(sessionId);
     if (!session) { session = {...}; transcriptionSessions.set(sessionId, session); }] *)
Definition getOrCreate (sessionId workspace_id : string) (w : World) : World * loc :=
  match transcriptionSessions w !! sessionId with
  | Some l => (w, l)
  | None =>
      let l := fresh (dom (heap w)) in
      ({| heap := <[l := Session.mk workspace_id "" 0 (clock w)]> (heap w);
          transcriptionSessions := <[sessionId := l]> (transcriptionSessions w);
          timers := timers w;
          clock := clock w |}, l)
  end.

(** [session.chunk_count++] *)
Definition incr_chunk_count (s : Session.t) : Session.t :=
  Session.mk (Session.workspace_id s) (Session.accumulated_text s)
             (Session.chunk_count s + 1) (Session.created_at s).

(** The handler from its first line to the point where it suspends in
    [processAudioChunk] (on the 10 ms promise), or throws.  The [catch]
    block logs the error to the console and throws it again; the console
    is not part of the world. *)
Definition enter (uuid : string) (input : TranscribeChunkInput) (w : World)
  : World * (Error + Pending.t) :=
  match audio_chunk input with
  | None => (w, inl (MkError "Audio chunk is required and cannot be empty"))
  | Some chunk =>
      if (chunkSize chunk =? 0)%nat
      then (w, inl (MkError "Audio chunk is required and cannot be empty"))
      else
        match workspace_id input with
        | None => (w, inl (MkError "Workspace ID is required"))
        | Some ws =>
            if negb (Js.truthy ws)
            then (w, inl (MkError "Workspace ID is required"))
            else
              let sessionId := resolveSessionId (session_id input) uuid in
              let audioData := audioData chunk in
              let '(w1, l) := getOrCreate sessionId ws w in
              let session := heap w1 !!! l in
              if negb (String.eqb (Session.workspace_id session) ws)
              then (w1, inl (MkError "Session workspace_id mismatch"))
              else
                let session := incr_chunk_count session in
                let k := Pending.mk sessionId l audioData (Session.chunk_count session) in
                (setTimeout (Resume k) 10 (write l session w1), inr k)
        end
  end.

(** [`${session.accumulated_text} ${chunkText}`] or [chunkText] *)
Definition accumulate (accumulated_text chunkText : string) : string :=
  if Js.truthy accumulated_text
  then accumulated_text +:+ " " +:+ chunkText
  else chunkText.

(** The rest of the handler, run when the 10 ms promise resolves. *)
Definition resume (k : Pending.t) (w : World) : World * Result.t :=
  let l := Pending.session k in
  let chunkText := processAudioChunk (Pending.audioData k) (Pending.chunkNumber k) in
  let session := heap w !!! l in
  let session :=
    if Js.truthy (Js.trim chunkText)
    then Session.mk (Session.workspace_id session)
                    (accumulate (Session.accumulated_text session) chunkText)
                    (Session.chunk_count session) (Session.created_at session)
    else session in
  let w1 := write l session w in
  let isFinal := shouldMarkAsFinal (Pending.audioData k) (Session.chunk_count session) in
  let w2 := if isFinal then setTimeout (Evict (Pending.sessionId k)) 5000 w1 else w1 in
  (w2, Result.mk (Session.accumulated_text session) (Pending.sessionId k) isFinal).

(** [transcriptionSessions.delete(sessionId)] *)
Definition evict (sessionId : string) (w : World) : World :=
  {| heap := heap w;
     transcriptionSessions := delete sessionId (transcriptionSessions w);
     timers := timers w;
     clock := clock w |}.

(** ** The event loop *)

(** Time passes to [t]. *)
Definition advance (t : Z) (w : World) : World :=
  {| heap := heap w;
     transcriptionSessions := transcriptionSessions w;
     timers := timers w;
     clock := t |}.

(** At time [t] the event loop takes timer [i] off the list. *)
Definition pop (i : nat) (t : Z) (w : World) : World :=
  {| heap := heap w;
     transcriptionSessions := transcriptionSessions w;
     timers := delete i (timers w);
     clock := t |}.

(** One turn of the event loop: a request comes in and runs until it
    suspends or throws, or a timer that is due fires and its callback
    runs to its end.  Time never goes back and no timer fires early. *)
Inductive step : World → World → Prop :=
| step_request w t uuid input :
    clock w ≤ t →
    step w (enter uuid input (advance t w)).1
| step_resume w t i due k :
    timers w !! i = Some (due, Resume k) →
    due ≤ t → clock w ≤ t →
    step w (resume k (pop i t w)).1
| step_evict w t i due sessionId :
    timers w !! i = Some (due, Evict sessionId) →
    due ≤ t → clock w ≤ t →
    step w (evict sessionId (pop i t w)).

(** A complete successful call [transcribeMeetingChunk(input)] made in
    world [w0]: it suspends with [k], the event loop does whatever else
    is due, and when the call's own timer fires it runs in world [w] to
    its end, leaving world [w'] and returning [r]. *)
Inductive call (uuid : string) (input : TranscribeChunkInput) (w0 : World)
  : Pending.t → World → World → Result.t → Prop :=
| call_intro w1 k w2 i due t :
    enter uuid input w0 = (w1, inr k) →
    rtc step w1 w2 →
    timers w2 !! i = Some (due, Resume k) →
    due ≤ t → clock w2 ≤ t →
    call uuid input w0 k (pop i t w2)
         (resume k (pop i t w2)).1 (resume k (pop i t w2)).2.

(** The same call when nothing else happens while it is suspended: the
    way the handler behaves for a caller that awaits each call before
    making the next, with no eviction falling due in between. *)
Definition transcribeMeetingChunk (uuid : string) (input : TranscribeChunkInput)
    (w : World) : World * (Error + Result.t) :=
  match enter uuid input w with
  | (w1, inl e) => (w1, inl e)
  | (w1, inr k) =>
      let '(w2, r) := resume k (pop (length (timers w)) (clock w + 10) w1) in
      (w2, inr r)
  end.

(** ** Sample data *)

Definition tone (size : nat) (value : Byte.byte) : AudioChunk :=
  Uint8Array (repeat value size).

Definition request (chunk : AudioChunk) (ws : string) (sid : option string)
  : TranscribeChunkInput :=
  {| audio_chunk := Some chunk; workspace_id := Some ws; session_id := sid |}.

(** A caller that makes the calls one after the other, awaiting each. *)
Fixpoint awaitAll (calls : list (string * TranscribeChunkInput)) (w : World)
  : World * list (Error + Result.t) :=
  match calls with
  | [] => (w, [])
  | (uuid, input) :: rest =>
      let '(w1, o) := transcribeMeetingChunk uuid input w in
      let '(w2, os) := awaitAll rest w1 in
      (w2, o :: os)
  end.

(** The world after one first chunk of mean 75 for workspace "A" under
    the identifier "s", awaited to its end. *)
Definition world_A : World :=
  (transcribeMeetingChunk "u" (request (tone 100 Byte.x4b) "A" (Some "s")) init).1.

(** The same first call, step by step: the request, what the call
    holds when it suspends, the world in which it resumes, the world it
    leaves and its result. *)
Definition first_request : TranscribeChunkInput :=
  request (tone 100 Byte.x4b) "A" (Some "s").

Definition first_k : Pending.t :=
  Pending.mk "s" 1%positive (repeat Byte.x4b 100) 1.

Definition first_resumed : World :=
  pop 0 10 (enter "u" first_request init).1.

Definition first_result : World * Result.t := resume first_k first_resumed.

(** Calls that are not awaited.  The first call for session "s" enters
    at time 0; [crowded n] is the world after [n] more calls for "s"
    have entered, one millisecond apart, while the first is still
    suspended.  At time 10 the first call resumes in [crowded_resumed],
    with four others behind it. *)
Definition crowded (n : nat) : World :=
  Nat.iter n (λ w, (enter "u" first_request (advance (clock w + 1) w)).1)
           (enter "u" first_request init).1.

Definition crowded_resumed : World := pop 0 10 (crowded 4).

Definition crowded_result : World * Result.t := resume first_k crowded_resumed.

(** A trace in which a session is evicted under a running call.  At
    time 0 a chunk of 100 bytes of value 5 opens session "s"; the call
    returns at time 10, final, and schedules the eviction for time 5010
    ([world_final]).  At time 5005 a second such chunk for "s" comes in
    and suspends until 5015 ([world_late]).  At 5010 the eviction fires
    ([world_evicted]).  At 5015 the second call resumes in
    [late_resumed]. *)
Definition quiet : AudioChunk := tone 100 Byte.x05.

Definition late_request : TranscribeChunkInput := request quiet "A" (Some "s").

Definition early_k : Pending.t :=
  Pending.mk "s" 1%positive (repeat Byte.x05 100) 1.

Definition early_resumed : World := pop 0 10 (enter "u" late_request init).1.

Definition early_result : World * Result.t := resume early_k early_resumed.

Definition world_final : World :=
  (transcribeMeetingChunk "u" late_request init).1.

Definition world_late : World :=
  (enter "u" late_request (advance 5005 world_final)).1.

Definition late_k : Pending.t :=
  Pending.mk "s" 1%positive (repeat Byte.x05 100) 2.

Definition world_evicted : World := evict "s" (pop 0 5010 world_late).

Definition late_resumed : World := pop 0 5015 world_evicted.

Definition late_result : World * Result.t := resume late_k late_resumed.

(** ** Specification vocabulary *)

(** The arithmetic mean of the byte values, as a rational. *)
Definition mean (audioData : list Byte.byte) : Q :=
  dataSum audioData # Pos.of_nat (length audioData).

(** A session's text after one more token has been appended to it. *)
Definition appended (text token : string) : string :=
  if decide (text = "") then token else text +:+ " " +:+ token.

(** The session [s] with one more token appended to its text. *)
Definition append_token (token : string) (s : Session.t) : Session.t :=
  Session.mk (Session.workspace_id s)
             (appended (Session.accumulated_text s) token)
             (Session.chunk_count s) (Session.created_at s).

(** A token that survives trimming. *)
Definition nonblank (token : string) : Prop := Js.trim token ≠ "".

(** [text'] is [text] followed by zero or more appended tokens. *)
Definition extends (text text' : string) : Prop :=
  ∃ tokens, Forall nonblank tokens ∧ text' = fold_left appended tokens text.

(** In world [w] the identifier [sessionId] names the session object
    [s], which lives at [l]. *)
Definition names (w : World) (sessionId : string) (l : loc) (s : Session.t) : Prop :=
  transcriptionSessions w !! sessionId = Some l ∧ heap w !! l = Some s.

(** The number of chunks already counted in [w] for the session that
    [sessionId] names: zero when it names none. *)
Definition chunksBefore (w : World) (sessionId : string) : Z :=
  match transcriptionSessions w !! sessionId with
  | Some l => Session.chunk_count (heap w !!! l)
  | None => 0
  end.

(** How a session object may change over time: its workspace and
    creation time are fixed, its counter never decreases, its text only
    grows by appended tokens. *)
Definition evolves (s s' : Session.t) : Prop :=
  Session.workspace_id s' = Session.workspace_id s
  ∧ Session.created_at s' = Session.created_at s
  ∧ Session.chunk_count s ≤ Session.chunk_count s'
  ∧ extends (Session.accumulated_text s) (Session.accumulated_text s').

(** No reference dangles: the store and the suspended calls only hold
    references to session objects that are on the heap. *)
Definition allocated (w : World) (task : Task) : Prop :=
  match task with
  | Resume k => Pending.session k ∈ dom (heap w)
  | Evict _ => True
  end.

Definition well_formed (w : World) : Prop :=
  (∀ sessionId l, transcriptionSessions w !! sessionId = Some l → l ∈ dom (heap w))
  ∧ Forall (λ timer, allocated w timer.2) (timers w).

(** ** Further vocabulary *)

(** The worlds the event loop can get to from the initial one. *)
Definition reachable (w : World) : Prop := rtc step init w.

(** A turn of the event loop, with the session id it is about: the id a
    request resolves to, the id a resuming call holds, the id an
    eviction deletes. *)
Inductive step_for (sessionId : string) : World → World → Prop :=
| for_request w t uuid input :
    clock w ≤ t →
    resolveSessionId (session_id input) uuid = sessionId →
    step_for sessionId w (enter uuid input (advance t w)).1
| for_resume w t i due k :
    timers w !! i = Some (due, Resume k) →
    due ≤ t → clock w ≤ t →
    Pending.sessionId k = sessionId →
    step_for sessionId w (resume k (pop i t w)).1
| for_evict w t i due :
    timers w !! i = Some (due, Evict sessionId) →
    due ≤ t → clock w ≤ t →
    step_for sessionId w (evict sessionId (pop i t w)).

(** A suspended call's session object is named, if at all, by the id
    the call holds. *)
Definition owned (w : World) (task : Task) : Prop :=
  match task with
  | Resume k =>
      ∀ sessionId,
        transcriptionSessions w !! sessionId = Some (Pending.session k) →
        sessionId = Pending.sessionId k
  | Evict _ => True
  end.

(** No two ids name the same session object, and no suspended call
    holds the object of another id. *)
Definition coherent (w : World) : Prop :=
  well_formed w
  ∧ (∀ a b l, transcriptionSessions w !! a = Some l →
              transcriptionSessions w !! b = Some l → a = b)
  ∧ Forall (λ timer, owned w timer.2) (timers w).

(** A session as the handler leaves one: bound to a workspace, with at
    least one chunk counted, created no later than [now]. *)
Definition sane (now : Z) (s : Session.t) : Prop :=
  Session.workspace_id s ≠ ""
  ∧ 1 ≤ Session.chunk_count s
  ∧ Session.created_at s ≤ now.

Definition all_sane (w : World) : Prop :=
  well_formed w ∧ ∀ l s, heap w !! l = Some s → sane (clock w) s.

(** The tokens of the chunks [chunks] when the first of them is in
    position [p]. *)
Fixpoint tokens_from (p : Z) (chunks : list AudioChunk) : list string :=
  match chunks with
  | [] => []
  | chunk :: rest => processAudioChunk (audioData chunk) p :: tokens_from (p + 1) rest
  end.

(** The non-empty tokens, separated by single spaces. *)
Definition join_tokens (tokens : list string) : string :=
  String.concat " " (filter (λ token, token ≠ "") tokens).

(** The requests of one caller sending [chunks] for workspace [ws] under
    the session id [sid]. *)
Definition stream (uuid ws sid : string) (chunks : list AudioChunk)
  : list (string * TranscribeChunkInput) :=
  map (λ chunk, (uuid, request chunk ws (Some sid))) chunks.

(** In world [w] the id [sid] stands for a session of workspace [ws]
    with the text [text] and [p] chunks counted: it names such a
    session, or it names none, the text is empty and [p] is zero. *)
Definition tracks (w : World) (sid ws text : string) (p : Z) : Prop :=
  (transcriptionSessions w !! sid = None ∧ text = "" ∧ p = 0)
  ∨ ∃ l created, names w sid l (Session.mk ws text p created).

(** ** The audio generator of the test suite *)

(** Storing the number [z] in a [Uint8Array]: its value modulo 256. *)
Definition toUint8 (z : Z) : Byte.byte :=
  default Byte.x00 (Byte.of_N (Z.to_N (z mod 256))).

(** [createMockAudioChunk(size, avgValue)] of
    [tests/transcribe_meeting.test.ts]; [draw i] is what
    [Math.floor(Math.random() * 20)] gives at index [i].  The tests pass
    integers as [avgValue]. *)
Definition createMockAudioChunk (draw : nat → Z) (size : nat) (avgValue : Z)
  : AudioChunk :=
  Uint8Array
    (map (λ i, let variation := draw i - 10 in
               toUint8 (Z.max 0 (Z.min 255 (avgValue + variation))))
         (seq 0 size)).

(** What [Math.floor(Math.random() * 20)] can give. *)
Definition fair (draw : nat → Z) : Prop := ∀ i, 0 ≤ draw i < 20.

(** Comparisons of a mean with an integer constant, in integers. *)
Ltac mean_lia :=
  unfold Qlt, Qle, mean, inject_Z in *; cbn [Qnum Qden] in *; lia.

(** ** Basic facts *)

Section Primitives.

Lemma truthy_true s : Js.truthy s = true ↔ s ≠ "".
Proof. destruct s; simpl; split; congruence. Qed.

Lemma truthy_false s : Js.truthy s = false ↔ s = "".
Proof. destruct s; simpl; split; congruence. Qed.

Lemma lt_Fin q c : Js.lt (Js.Fin q) c = true ↔ (q < inject_Z c)%Q.
Proof.
  unfold Js.lt. rewrite Qlt_alt.
  destruct (q ?= inject_Z c)%Q; split; congruence.
Qed.

Lemma lt_Fin_false q c : Js.lt (Js.Fin q) c = false ↔ (inject_Z c <= q)%Q.
Proof.
  rewrite <- not_true_iff_false, lt_Fin. split.
  - apply Qnot_lt_le.
  - apply Qle_not_lt.
Qed.

Lemma avgValue_mean audioData :
  audioData ≠ [] → avgValue audioData = Js.Fin (mean audioData).
Proof.
  intros Hne. unfold avgValue, mean.
  destruct audioData as [|b rest]; [done|].
  simpl length. unfold Js.div_length.
  by rewrite Pos.of_nat_succ.
Qed.

Lemma session_eta (s : Session.t) :
  Session.mk (Session.workspace_id s) (Session.accumulated_text s)
             (Session.chunk_count s) (Session.created_at s) = s.
Proof. by destruct s. Qed.

Lemma accumulate_appended text token : accumulate text token = appended text token.
Proof.
  unfold accumulate, appended.
  destruct text; case_decide; done.
Qed.

End Primitives.

Section Handler.

Implicit Types (w : World) (l : loc) (s : Session.t) (k : Pending.t).

Lemma getOrCreate_found sessionId ws w l :
  transcriptionSessions w !! sessionId = Some l →
  getOrCreate sessionId ws w = (w, l).
Proof. intros H. unfold getOrCreate. by rewrite H. Qed.

Lemma getOrCreate_fresh sessionId ws w wg l :
  transcriptionSessions w !! sessionId = None →
  getOrCreate sessionId ws w = (wg, l) →
  heap w !! l = None
  ∧ heap wg = <[l := Session.mk ws "" 0 (clock w)]> (heap w)
  ∧ transcriptionSessions wg = <[sessionId := l]> (transcriptionSessions w)
  ∧ timers wg = timers w ∧ clock wg = clock w.
Proof.
  intros H. unfold getOrCreate. rewrite H. intros [= <- <-]. simpl.
  split; [|done].
  apply not_elem_of_dom, is_fresh.
Qed.

(** What a call that got past all three checks has done by the time
    it suspends. *)
Lemma enter_suspended uuid input w w1 k :
  enter uuid input w = (w1, inr k) →
  ∃ chunk ws wg,
    audio_chunk input = Some chunk ∧ chunkSize chunk ≠ 0%nat
    ∧ workspace_id input = Some ws ∧ ws ≠ ""
    ∧ getOrCreate (resolveSessionId (session_id input) uuid) ws w
      = (wg, Pending.session k)
    ∧ Session.workspace_id (heap wg !!! Pending.session k) = ws
    ∧ k = Pending.mk (resolveSessionId (session_id input) uuid)
                     (Pending.session k) (audioData chunk)
                     (Session.chunk_count (heap wg !!! Pending.session k) + 1)
    ∧ w1 = setTimeout (Resume k) 10
             (write (Pending.session k)
                    (incr_chunk_count (heap wg !!! Pending.session k)) wg).
Proof.
  unfold enter. intros H.
  destruct (audio_chunk input) as [chunk|]; [|done].
  destruct (chunkSize chunk =? 0)%nat eqn:Hsize; [done|].
  destruct (workspace_id input) as [ws|]; [|done].
  destruct (Js.truthy ws) eqn:Hws; [|done]. simpl in H.
  destruct (getOrCreate _ ws w) as [wg l] eqn:Hg.
  destruct (String.eqb _ ws) eqn:Heq; [|done]. simpl in H.
  injection H as <- <-. simpl.
  exists chunk, ws, wg. repeat split; try done.
  - by apply Nat.eqb_neq.
  - by apply truthy_true.
  - by apply String.eqb_eq.
Qed.

(** A call that throws leaves the world as it found it. *)
Lemma enter_rejected uuid input w w1 e :
  enter uuid input w = (w1, inl e) →
  w1 = w ∧ (InvalidInput e ∨ WorkspaceMismatch e).
Proof.
  unfold enter, InvalidInput, WorkspaceMismatch. intros H.
  destruct (audio_chunk input) as [chunk|];
    [|injection H as <- <-; simpl; auto].
  destruct (chunkSize chunk =? 0)%nat;
    [injection H as <- <-; simpl; auto|].
  destruct (workspace_id input) as [ws|];
    [|injection H as <- <-; simpl; auto].
  destruct (Js.truthy ws); simpl in H;
    [|injection H as <- <-; simpl; auto].
  unfold getOrCreate in H.
  destruct (transcriptionSessions w !! _) as [l|] eqn:Hl.
  - destruct (String.eqb _ ws); simpl in H; [done|].
    injection H as <- <-; simpl; auto.
  - cbn [heap] in H. rewrite lookup_total_insert_eq in H. simpl in H.
    by rewrite String.eqb_refl in H.
Qed.

Lemma resume_spec k w :
  let s := heap w !!! Pending.session k in
  let chunkText := processAudioChunk (Pending.audioData k) (Pending.chunkNumber k) in
  let s' := Session.mk (Session.workspace_id s)
              (if Js.truthy (Js.trim chunkText)
               then appended (Session.accumulated_text s) chunkText
               else Session.accumulated_text s)
              (Session.chunk_count s) (Session.created_at s) in
  let isFinal := shouldMarkAsFinal (Pending.audioData k) (Session.chunk_count s) in
  heap (resume k w).1 = <[Pending.session k := s']> (heap w)
  ∧ transcriptionSessions (resume k w).1 = transcriptionSessions w
  ∧ clock (resume k w).1 = clock w
  ∧ timers (resume k w).1
    = (if isFinal
       then timers w ++ [(clock w + 5000, Evict (Pending.sessionId k))]
       else timers w)
  ∧ (resume k w).2
    = Result.mk (Session.accumulated_text s') (Pending.sessionId k) isFinal.
Proof.
  unfold resume. simpl.
  destruct (heap w !!! Pending.session k) as [ws text n t] eqn:Hs. simpl.
  destruct (Js.truthy (Js.trim _)); simpl;
    rewrite ?accumulate_appended;
    destruct (shouldMarkAsFinal _ n); done.
Qed.

End Handler.

Section Evolution.

Implicit Types (w : World) (l : loc) (s : Session.t) (k : Pending.t).

Lemma extends_refl text : extends text text.
Proof. by exists []. Qed.

Lemma extends_appended text token :
  nonblank token → extends text (appended text token).
Proof. intros H. exists [token]. split; [by constructor|done]. Qed.

Lemma extends_trans a b c : extends a b → extends b c → extends a c.
Proof.
  intros (t1 & H1 & ->) (t2 & H2 & ->). exists (t1 ++ t2). split.
  - by apply Forall_app.
  - by rewrite fold_left_app.
Qed.

Lemma evolves_refl s : evolves s s.
Proof. unfold evolves. repeat split; [lia|apply extends_refl]. Qed.

Lemma evolves_trans s1 s2 s3 : evolves s1 s2 → evolves s2 s3 → evolves s1 s3.
Proof.
  intros (? & ? & ? & ?) (? & ? & ? & ?). unfold evolves.
  repeat split; [congruence|congruence|lia|by eapply extends_trans].
Qed.

Lemma incr_evolves s : evolves s (incr_chunk_count s).
Proof. unfold evolves. simpl. repeat split; [lia|apply extends_refl]. Qed.

Lemma append_evolves s token :
  nonblank token → evolves s (append_token token s).
Proof.
  intros H. unfold evolves. simpl.
  repeat split; [lia|by apply extends_appended].
Qed.

(** Entering a call leaves a session object alone or counts one more
    chunk on it. *)
Lemma enter_session uuid input w l s :
  heap w !! l = Some s →
  heap (enter uuid input w).1 !! l = Some s
  ∨ heap (enter uuid input w).1 !! l = Some (incr_chunk_count s).
Proof.
  intros Hl. destruct (enter uuid input w) as [w1 [e|k]] eqn:He.
  - apply enter_rejected in He as [-> _]. by left.
  - apply enter_suspended in He as (chunk & ws & wg & _ & _ & _ & _ & Hg & _ & _ & ->).
    simpl. revert Hg. unfold getOrCreate.
    destruct (transcriptionSessions w !! _) as [l'|].
    + intros [= <- <-]. destruct (decide (l' = l)) as [->|Hne].
      * rewrite lookup_insert_eq, (lookup_total_correct _ _ _ Hl). by right.
      * rewrite lookup_insert_ne by done. by left.
    + intros [= <- Hfresh]. simpl.
      assert (Pending.session k ≠ l) as Hne.
      { intros Heq. rewrite <- Heq, <- Hfresh in Hl.
        by apply elem_of_dom_2, is_fresh in Hl. }
      rewrite Hfresh, !lookup_insert_ne by done. by left.
Qed.

(** Resuming a call leaves a session object alone or appends one
    token to its text. *)
Lemma resume_session k w l s :
  heap w !! l = Some s →
  heap (resume k w).1 !! l = Some s
  ∨ ∃ token, nonblank token
             ∧ heap (resume k w).1 !! l = Some (append_token token s).
Proof.
  intros Hl. destruct (resume_spec k w) as (-> & _).
  destruct (decide (Pending.session k = l)) as [Heq|Hne].
  - rewrite Heq, lookup_insert_eq, (lookup_total_correct _ _ _ Hl).
    destruct (Js.truthy _) eqn:Ht.
    + right. eexists. split; [by apply truthy_true in Ht|done].
    + left. by rewrite session_eta.
  - rewrite lookup_insert_ne by done. by left.
Qed.

Lemma step_session w w' l s :
  step w w' → heap w !! l = Some s →
  heap w' !! l = Some s
  ∨ heap w' !! l = Some (incr_chunk_count s)
  ∨ ∃ token, nonblank token ∧ heap w' !! l = Some (append_token token s).
Proof.
  intros [w0 t uuid input _|w0 t i due k _ _ _|w0 t i due sid _ _ _] Hl.
  - destruct (enter_session uuid input (advance t w0) l s Hl); auto.
  - destruct (resume_session k (pop i t w0) l s Hl); auto.
  - by left.
Qed.

Lemma step_evolves w w' l s :
  step w w' → heap w !! l = Some s →
  ∃ s', heap w' !! l = Some s' ∧ evolves s s'.
Proof.
  intros Hstep Hl.
  destruct (step_session _ _ _ _ Hstep Hl) as [H|[H|(token & Hb & H)]];
    eexists; (split; [exact H|]).
  - apply evolves_refl.
  - apply incr_evolves.
  - by apply append_evolves.
Qed.

(** Whatever the event loop does, a session object stays on the heap
    and only evolves. *)
Lemma steps_evolve w w' l s :
  rtc step w w' → heap w !! l = Some s →
  ∃ s', heap w' !! l = Some s' ∧ evolves s s'.
Proof.
  intros Hsteps. revert s. induction Hsteps as [w|w w1 w' Hstep _ IH]; intros s Hl.
  - exists s. split; [done|apply evolves_refl].
  - destruct (step_evolves _ _ _ _ Hstep Hl) as (s1 & Hl1 & He1).
    destruct (IH _ Hl1) as (s' & Hl' & He').
    exists s'. split; [done|by eapply evolves_trans].
Qed.

End Evolution.

(** ** Well-formed worlds *)

Section WellFormed.

Implicit Types (w : World) (l : loc) (s : Session.t) (k : Pending.t).

Lemma allocated_mono w w' task :
  dom (heap w) ⊆ dom (heap w') → allocated w task → allocated w' task.
Proof. destruct task; simpl; [set_solver|done]. Qed.

Lemma well_formed_init : well_formed init.
Proof. split; [by intros sid l|by constructor]. Qed.

Lemma well_formed_enter uuid input w :
  well_formed w → well_formed (enter uuid input w).1.
Proof.
  intros [Hstore Htimers]. destruct (enter uuid input w) as [w1 [e|k]] eqn:He.
  - by apply enter_rejected in He as [-> _].
  - apply enter_suspended in He
      as (chunk & ws & wg & _ & _ & _ & _ & Hg & _ & _ & ->).
    simpl. revert Hg. unfold getOrCreate.
    destruct (transcriptionSessions w !! _) as [l'|] eqn:Hl'.
    + intros [= <- Hl]. subst l'. split; simpl.
      * intros sid l Hsid. rewrite dom_insert_L.
        apply Hstore in Hsid. set_solver.
      * apply Forall_app. split.
        -- eapply Forall_impl; [exact Htimers|].
           intros [due task] Ha. eapply allocated_mono; [|exact Ha].
           simpl. rewrite dom_insert_L. set_solver.
        -- constructor; [|done]. simpl. rewrite dom_insert_L. set_solver.
    + intros [= <- Hl]. split; simpl.
      * intros sid l. rewrite !dom_insert_L, lookup_insert.
        case_decide; [intros [= <-]; set_solver|].
        intros Hsid. apply Hstore in Hsid. set_solver.
      * apply Forall_app. split.
        -- eapply Forall_impl; [exact Htimers|].
           intros [due task] Ha. eapply allocated_mono; [|exact Ha].
           simpl. rewrite !dom_insert_L. set_solver.
        -- constructor; [|done]. simpl. rewrite !dom_insert_L. set_solver.
Qed.

Lemma well_formed_resume k w :
  well_formed w → well_formed (resume k w).1.
Proof.
  intros [Hstore Htimers].
  destruct (resume_spec k w) as (Hheap & Hst & _ & Ht & _).
  assert (dom (heap w) ⊆ dom (heap (resume k w).1)) as Hdom.
  { rewrite Hheap, dom_insert_L. set_solver. }
  split.
  - intros sid l. rewrite Hst. intros Hsid. apply Hstore in Hsid. set_solver.
  - rewrite Ht.
    assert (Forall (λ timer, allocated (resume k w).1 timer.2) (timers w)) as H.
    { eapply Forall_impl; [exact Htimers|].
      intros [due task] Ha. by eapply allocated_mono. }
    destruct (shouldMarkAsFinal _ _); [|done].
    apply Forall_app. split; [done|]. by repeat constructor.
Qed.

Lemma well_formed_pop i t w : well_formed w → well_formed (pop i t w).
Proof. intros [Hstore Htimers]. split; [done|]. simpl. by apply Forall_delete. Qed.

(** Every world the event loop can get to from a well-formed one, the
    initial world in particular, is well-formed: the handler never reads
    a session object that is not there. *)
Lemma well_formed_steps w w' : rtc step w w' → well_formed w → well_formed w'.
Proof.
  induction 1 as [|w w1 w' Hstep _ IH]; [done|]. intros Hw. apply IH.
  destruct Hstep as [w t uuid input _|w t i due k _ _ _|w t i due sid _ _ _].
  - apply well_formed_enter. by destruct Hw.
  - by apply well_formed_resume, well_formed_pop.
  - apply (well_formed_pop i t) in Hw as [Hstore Htimers]. split; [|done].
    intros sid' l. simpl. rewrite lookup_delete.
    case_decide; [done|]. apply Hstore.
Qed.

End WellFormed.

(** ** The classifier's table *)

Section Classifier.

Lemma long_nonempty (audioData : list Byte.byte) :
  (100 ≤ length audioData)%nat → audioData ≠ [].
Proof. destruct audioData; simpl; [lia|done]. Qed.

Lemma size_test (audioData : list Byte.byte) :
  (100 ≤ length audioData)%nat → (length audioData <? 100)%nat = false.
Proof. intros H. by apply Nat.ltb_ge. Qed.

Lemma lt_mean_true audioData c :
  audioData ≠ [] → (mean audioData < inject_Z c)%Q →
  Js.lt (avgValue audioData) c = true.
Proof. intros Hne H. rewrite avgValue_mean by done. by apply lt_Fin. Qed.

Lemma lt_mean_false audioData c :
  audioData ≠ [] → (inject_Z c <= mean audioData)%Q →
  Js.lt (avgValue audioData) c = false.
Proof. intros Hne H. rewrite avgValue_mean by done. by apply lt_Fin_false. Qed.

Lemma shouldMarkAsFinal_iff audioData n :
  audioData ≠ [] →
  shouldMarkAsFinal audioData n = true
  ↔ 5 ≤ n ∨ (mean audioData < 10)%Q.
Proof.
  intros Hne. unfold shouldMarkAsFinal. rewrite avgValue_mean by done.
  destruct (5 <=? n) eqn:Hn.
  - apply Z.leb_le in Hn. split; [by left|done].
  - apply Z.leb_gt in Hn. rewrite lt_Fin. split; [by right|].
    intros [?|?]; [lia|done].
Qed.

End Classifier.

(** C4. For a byte sequence of at least 100 bytes and chunk position
    [p], the classifier returns the token of the fixed table over the
    mean byte value [m]: below 50, "Hello" at position 1 and "and"
    elsewhere; from 50 and below 100, "Welcome" and "everyone"; from 100
    and below 150, "Good morning" and "to the meeting"; from 150 on,
    "Thank you" and "for joining us today". *)
Theorem processAudioChunk_table (audioData : list Byte.byte) (p : Z) :
  (100 ≤ length audioData)%nat →
  let m := mean audioData in
  let token := processAudioChunk audioData p in
  ((m < 50)%Q → token = if decide (p = 1) then "Hello" else "and")
  ∧ ((50 <= m)%Q ∧ (m < 100)%Q →
     token = if decide (p = 1) then "Welcome" else "everyone")
  ∧ ((100 <= m)%Q ∧ (m < 150)%Q →
     token = if decide (p = 1) then "Good morning" else "to the meeting")
  ∧ ((150 <= m)%Q →
     token = if decide (p = 1) then "Thank you" else "for joining us today").
Proof.
  intros Hlen m token. subst token. unfold processAudioChunk.
  rewrite size_test by done.
  pose proof (long_nonempty _ Hlen) as Hne.
  assert ((p =? 1) = bool_decide (p = 1)) as ->.
  { case_bool_decide; [by apply Z.eqb_eq|by apply Z.eqb_neq]. }
  assert (∀ a b : string, (if bool_decide (p = 1) then a else b)
                          = (if decide (p = 1) then a else b)) as Hif.
  { intros a b. by case_bool_decide; case_decide. }
  rewrite !Hif. subst m.
  repeat split.
  - intros H. by rewrite (lt_mean_true _ 50).
  - intros [H1 H2].
    by rewrite (lt_mean_false _ 50), (lt_mean_true _ 100).
  - intros [H1 H2].
    rewrite (lt_mean_false _ 50), (lt_mean_false _ 100), (lt_mean_true _ 150);
      [done|done|done|done|mean_lia|done|mean_lia].
  - intros H.
    rewrite (lt_mean_false _ 50), (lt_mean_false _ 100), (lt_mean_false _ 150);
      [done|done|done|done|mean_lia|done|mean_lia].
Qed.

Lemma processAudioChunk_table_witness :
  (100 ≤ length (repeat Byte.x4b 100))%nat
  ∧ processAudioChunk (repeat Byte.x4b 100) 1 = "Welcome".
Proof.
  split; [vm_compute; lia|].
  destruct (processAudioChunk_table (repeat Byte.x4b 100) 1) as (_ & H & _).
  - vm_compute. lia.
  - apply H. split; vm_compute; congruence.
Defined.

(** ** Validation *)

(** C5. The handler fails with [InvalidInput] exactly when the audio
    fragment is absent or has length zero, or the workspace id is absent
    or empty; and on every such failure the world is what it was: no
    session is created, none is changed. *)
Theorem invalid_input_exactly (uuid : string) (input : TranscribeChunkInput)
    (w : World) :
  ((∃ e, (enter uuid input w).2 = inl e ∧ InvalidInput e)
   ↔ (audio_chunk input = None
      ∨ (∃ chunk, audio_chunk input = Some chunk ∧ chunkSize chunk = 0%nat)
      ∨ workspace_id input = None
      ∨ workspace_id input = Some ""))
  ∧ (∀ e, (enter uuid input w).2 = inl e → InvalidInput e →
          (enter uuid input w).1 = w).
Proof.
  split.
  - destruct input as [[chunk|] ows sid]; unfold enter, InvalidInput; simpl.
    2:{ split; [by left|]. intros _. eexists. split; [done|by left]. }
    destruct (chunkSize chunk =? 0)%nat eqn:Hsize; simpl.
    { apply Nat.eqb_eq in Hsize. split.
      - intros _. right. left. by exists chunk.
      - intros _. eexists. split; [done|by left]. }
    apply Nat.eqb_neq in Hsize.
    destruct ows as [ws|]; simpl.
    2:{ split; [by auto|]. intros _. eexists. split; [done|by right]. }
    destruct (Js.truthy ws) eqn:Hws; simpl.
    + apply truthy_true in Hws.
      destruct (getOrCreate _ ws w) as [wg l].
      destruct (String.eqb _ ws); simpl; split.
      * by intros (e & ? & _).
      * intros [?|[(c & [= <-] & ?)|[?|[= ?]]]]; done.
      * intros (e & [= <-] & [H|H]); by simpl in H.
      * intros [?|[(c & [= <-] & ?)|[?|[= ?]]]]; done.
    + apply truthy_false in Hws as ->. split; [by auto|].
      intros _. eexists. split; [done|by right].
  - intros e He _. destruct (enter uuid input w) as [w1 o] eqn:Henter.
    simpl in *. subst o. by apply enter_rejected in Henter as [-> _].
Qed.

(** C9. A zero-length fragment is rejected with [InvalidInput], and
    whatever the input, a call that is not rejected carries at least one
    byte to the finality check: the mean that [shouldMarkAsFinal]
    divides out is a proper number, never [0 / 0], and the check decides
    by it. *)
Theorem finality_mean_defined (uuid : string) (input : TranscribeChunkInput)
    (w : World) :
  (∀ chunk, audio_chunk input = Some chunk → chunkSize chunk = 0%nat →
            ∃ e, (enter uuid input w).2 = inl e ∧ InvalidInput e)
  ∧ match (enter uuid input w).2 with
    | inl _ => True
    | inr k =>
        (1 ≤ length (Pending.audioData k))%nat
        ∧ avgValue (Pending.audioData k) = Js.Fin (mean (Pending.audioData k))
        ∧ ∀ n, shouldMarkAsFinal (Pending.audioData k) n = true
               ↔ 5 ≤ n ∨ (mean (Pending.audioData k) < 10)%Q
    end.
Proof.
  split.
  { intros chunk Hin Hsize. unfold enter. rewrite Hin, Hsize. simpl.
    eexists. split; [done|by left]. }
  destruct (enter uuid input w) as [w1 [e|k]] eqn:He; [done|]. simpl.
  apply enter_suspended in He
    as (chunk & ws & wg & _ & Hsize & _ & _ & _ & _ & Hk & _).
  assert (Pending.audioData k ≠ []) as Hne.
  { rewrite Hk. simpl. intros Hnil. apply Hsize.
    destruct chunk; simpl in *; by rewrite Hnil. }
  split; [destruct (Pending.audioData k); simpl; [done|lia]|].
  split; [by apply avgValue_mean|].
  intros n. by apply shouldMarkAsFinal_iff.
Qed.

(** ** Workspace isolation *)

(** C2, as amended.  A call with a non-empty audio fragment and a
    non-empty workspace id, whose non-empty session id names an existing
    session of another workspace, fails with [WorkspaceMismatch], and
    the world is what it was: the session, the rest of the store and the
    heap are untouched. *)
Theorem workspace_mismatch_rejected (uuid : string) (chunk : AudioChunk)
    (ws sid : string) (w : World) (l : loc) (s : Session.t) :
  chunkSize chunk ≠ 0%nat → ws ≠ "" → sid ≠ "" →
  names w sid l s → Session.workspace_id s ≠ ws →
  ∃ e, enter uuid (request chunk ws (Some sid)) w = (w, inl e)
       ∧ WorkspaceMismatch e.
Proof.
  intros Hsize Hws Hsid [Hl Hs] Hne. unfold enter, request. simpl.
  apply Nat.eqb_neq in Hsize as ->.
  apply truthy_true in Hws as ->. apply truthy_true in Hsid as ->. simpl.
  rewrite (getOrCreate_found _ _ _ _ Hl), (lookup_total_correct _ _ _ Hs).
  apply String.eqb_neq in Hne as ->. simpl.
  by eexists.
Qed.

Lemma workspace_mismatch_rejected_witness :
  ∃ e, enter "u" (request (tone 100 Byte.x4b) "B" (Some "s")) world_A
       = (world_A, inl e)
       ∧ WorkspaceMismatch e.
Proof.
  apply (workspace_mismatch_rejected "u" (tone 100 Byte.x4b) "B" "s" world_A
           1%positive (Session.mk "A" "Welcome" 1 0)).
  - vm_compute. lia.
  - vm_compute. congruence.
  - vm_compute. congruence.
  - split; vm_compute; reflexivity.
  - simpl. congruence.
Defined.

(** C2 as stated fails: the session "s" exists and belongs to workspace
    "A", and the request names it and gives another workspace; but when
    its audio fragment is empty, or when the workspace it gives is the
    empty string, the failure is that of the input checks, which come
    first, not [WorkspaceMismatch]. *)
Lemma workspace_mismatch_counterexample :
  let no_audio := request (Uint8Array []) "B" (Some "s") in
  let no_workspace := request (tone 100 Byte.x4b) "" (Some "s") in
  (∃ l s, names world_A "s" l s
          ∧ session_id no_audio = Some "s"
          ∧ workspace_id no_audio ≠ Some (Session.workspace_id s)
          ∧ session_id no_workspace = Some "s"
          ∧ workspace_id no_workspace ≠ Some (Session.workspace_id s))
  ∧ (¬ ∃ e, (enter "u" no_audio world_A).2 = inl e ∧ WorkspaceMismatch e)
  ∧ (¬ ∃ e, (enter "u" no_workspace world_A).2 = inl e ∧ WorkspaceMismatch e).
Proof.
  split; [|split].
  - exists 1%positive, (Session.mk "A" "Welcome" 1 0).
    repeat split; try (vm_compute; reflexivity); simpl; congruence.
  - intros (e & He & Hm). vm_compute in He. injection He as <-.
    unfold WorkspaceMismatch in Hm. simpl in Hm. congruence.
  - intros (e & He & Hm). vm_compute in He. injection He as <-.
    unfold WorkspaceMismatch in Hm. simpl in Hm. congruence.
Qed.

(** ** Complete calls *)

Section Calls.

Implicit Types (w : World) (l : loc) (s : Session.t) (k : Pending.t).

(** The state a call is in when it suspends. *)
Lemma enter_state uuid input w0 w1 k :
  enter uuid input w0 = (w1, inr k) →
  ∃ chunk s1,
    audio_chunk input = Some chunk
    ∧ Pending.audioData k = audioData chunk
    ∧ Pending.audioData k ≠ []
    ∧ Pending.sessionId k = resolveSessionId (session_id input) uuid
    ∧ Pending.chunkNumber k = chunksBefore w0 (Pending.sessionId k) + 1
    ∧ names w1 (Pending.sessionId k) (Pending.session k) s1
    ∧ Session.chunk_count s1 = Pending.chunkNumber k
    ∧ timers w1 = timers w0 ++ [(clock w0 + 10, Resume k)]
    ∧ clock w1 = clock w0.
Proof.
  intros He. apply enter_suspended in He
    as (chunk & ws & wg & Hin & Hsize & _ & _ & Hg & _ & Hk & ->).
  pose proof (f_equal Pending.audioData Hk) as Hdata.
  pose proof (f_equal Pending.sessionId Hk) as Hsid.
  pose proof (f_equal Pending.chunkNumber Hk) as Hnum.
  simpl in Hdata, Hsid, Hnum. rewrite <- Hsid in Hg.
  exists chunk, (incr_chunk_count (heap wg !!! Pending.session k)).
  split; [done|]. split; [done|]. split.
  { rewrite Hdata. intros Hnil. apply Hsize.
    destruct chunk; simpl in *; by rewrite Hnil. }
  split; [done|]. unfold chunksBefore, names. simpl.
  rewrite lookup_insert_eq. revert Hg. unfold getOrCreate.
  destruct (transcriptionSessions w0 !! Pending.sessionId k) as [l'|] eqn:Hl'.
  - intros [= <- Hl]. subst l'. by rewrite Hnum.
  - intros [= <- Hl]. simpl in *. rewrite Hl in *.
    rewrite lookup_insert_eq, Hnum, lookup_total_insert_eq. done.
Qed.

Lemma call_inv uuid input w0 k w w' r :
  call uuid input w0 k w w' r →
  ∃ w1 s1 s,
    enter uuid input w0 = (w1, inr k)
    ∧ names w1 (Pending.sessionId k) (Pending.session k) s1
    ∧ heap w !! Pending.session k = Some s
    ∧ evolves s1 s
    ∧ w' = (resume k w).1 ∧ r = (resume k w).2.
Proof.
  intros [w1 k' w2 i due t He Hsteps _ _ _].
  destruct (enter_state _ _ _ _ _ He)
    as (chunk & s1 & _ & _ & _ & _ & _ & Hnames & _).
  destruct (steps_evolve _ _ _ _ Hsteps (proj2 Hnames)) as (s & Hs & Hev).
  by exists w1, s1, s.
Qed.

(** A call that is awaited with nothing happening in between is a
    complete call. *)
Lemma awaited_call uuid input w0 w' r :
  transcribeMeetingChunk uuid input w0 = (w', inr r) →
  ∃ w1 k,
    enter uuid input w0 = (w1, inr k)
    ∧ call uuid input w0 k (pop (length (timers w0)) (clock w0 + 10) w1) w' r.
Proof.
  unfold transcribeMeetingChunk.
  destruct (enter uuid input w0) as [w1 [e|k]] eqn:He; [done|].
  destruct (resume k _) as [w2 r'] eqn:Hr. intros [= <- <-].
  exists w1, k. split; [done|].
  destruct (enter_state _ _ _ _ _ He)
    as (_ & _ & _ & _ & _ & _ & _ & _ & _ & Ht & Hc).
  pose proof (call_intro uuid input w0 w1 k w1 (length (timers w0))
                (clock w0 + 10) (clock w0 + 10) He (rtc_refl _ _)) as Hcall.
  rewrite Hr in Hcall. apply Hcall; [|lia|lia].
  rewrite Ht. by apply list_lookup_middle.
Qed.

End Calls.

(** ** Finality *)

(** C1, as amended.  For every successfully processed chunk,
    [is_final] is true exactly when the chunk count of its session at
    the time the call resumes after classification is at least 5 or the
    mean byte value of the chunk is below 10.  That count includes this
    call's increment and those of the calls that entered for the same
    session while this one was suspended: it is never below the chunk's
    position (the count before the call plus one) and is equal to it
    when nothing else ran while the call was suspended.  In particular
    a chunk in position 5 or later is final whatever its content, and a
    chunk of mean below 10 is final in any position. *)
Theorem finality_iff (uuid : string) (input : TranscribeChunkInput)
    (w0 : World) (k : Pending.t) (w w' : World) (r : Result.t) :
  call uuid input w0 k w w' r →
  ∃ chunk s',
    audio_chunk input = Some chunk
    ∧ heap w' !! Pending.session k = Some s'
    ∧ let m := mean (audioData chunk) in
      let chunkCount := Session.chunk_count s' in
      let position := chunksBefore w0 (Result.session_id r) + 1 in
      (Result.is_final r = true ↔ 5 ≤ chunkCount ∨ (m < 10)%Q)
      ∧ position ≤ chunkCount
      ∧ (∀ i t, w = pop i t (enter uuid input w0).1 → chunkCount = position)
      ∧ (5 ≤ position → Result.is_final r = true)
      ∧ ((m < 10)%Q → Result.is_final r = true).
Proof.
  intros Hcall.
  destruct (call_inv _ _ _ _ _ _ _ Hcall)
    as (w1 & s1 & s & He & [_ Hs1] & Hs & Hev & -> & ->).
  destruct (enter_state _ _ _ _ _ He)
    as (chunk & s1' & Hin & Hdata & Hne & _ & Hnum & [_ Hs1'] & Hcount & _).
  assert (s1' = s1) as -> by congruence.
  destruct (resume_spec k w) as (Hheap & _ & _ & _ & ->).
  destruct Hev as (_ & _ & Hle & _).
  eexists chunk, _. split; [done|]. split.
  { rewrite Hheap. apply lookup_insert_eq. }
  rewrite (lookup_total_correct _ _ _ Hs). simpl.
  rewrite <- Hdata, <- Hnum, <- Hcount.
  pose proof (shouldMarkAsFinal_iff (Pending.audioData k)
                (Session.chunk_count s) Hne) as Hiff.
  split; [done|]. split; [done|]. split.
  { intros i t ->. rewrite He in Hs. simpl in Hs. congruence. }
  split.
  - intros H5. apply Hiff. left. lia.
  - intros Hm. apply Hiff. by right.
Qed.

Lemma finality_iff_witness :
  ∃ chunk s',
    audio_chunk first_request = Some chunk
    ∧ heap first_result.1 !! Pending.session first_k = Some s'
    ∧ let m := mean (audioData chunk) in
      let chunkCount := Session.chunk_count s' in
      let position := chunksBefore init (Result.session_id first_result.2) + 1 in
      (Result.is_final first_result.2 = true ↔ 5 ≤ chunkCount ∨ (m < 10)%Q)
      ∧ position ≤ chunkCount
      ∧ (∀ i t, first_resumed = pop i t (enter "u" first_request init).1 →
                chunkCount = position)
      ∧ (5 ≤ position → Result.is_final first_result.2 = true)
      ∧ ((m < 10)%Q → Result.is_final first_result.2 = true).
Proof.
  apply (finality_iff "u" first_request init first_k first_resumed).
  apply (call_intro "u" first_request init
           (enter "u" first_request init).1 first_k
           (enter "u" first_request init).1 0 10 10).
  - vm_compute. reflexivity.
  - apply rtc_refl.
  - vm_compute. reflexivity.
  - lia.
  - vm_compute. congruence.
Defined.

Lemma crowded_steps n : rtc step (crowded 0) (crowded n).
Proof.
  induction n as [|n IH]; [apply rtc_refl|].
  eapply rtc_r; [exact IH|].
  change (crowded (S n))
    with (enter "u" first_request (advance (clock (crowded n) + 1) (crowded n))).1.
  apply step_request. lia.
Qed.

(** C1 as stated fails.  Five calls for one session are made a
    millisecond apart, none awaited.  The first is in position 1 and its
    bytes have mean 75, but when it resumes the session has counted five
    chunks, and it returns [is_final = true]. *)
Lemma finality_position_counterexample :
  call "u" first_request init first_k
       crowded_resumed crowded_result.1 crowded_result.2
  ∧ audio_chunk first_request = Some (tone 100 Byte.x4b)
  ∧ chunksBefore init (Result.session_id crowded_result.2) + 1 = 1
  ∧ ¬ (mean (audioData (tone 100 Byte.x4b)) < 10)%Q
  ∧ crowded_result.2 = Result.mk "Welcome" "s" true.
Proof.
  split; [|split; [|split; [|split]]].
  - apply (call_intro "u" first_request init (crowded 0) first_k (crowded 4)
             0 10 10).
    + vm_compute. reflexivity.
    + apply crowded_steps.
    + vm_compute. reflexivity.
    + lia.
    + vm_compute. congruence.
  - reflexivity.
  - vm_compute. reflexivity.
  - vm_compute. congruence.
  - vm_compute. reflexivity.
Qed.

(** ** The result *)

(** C7, as amended.  A successful call returns as [partial_transcript]
    the whole accumulated text of its session object as the call leaves
    it, and as [session_id] the identifier under which the session was
    found or stored on entry: the caller's, verbatim, when the caller
    gave a non-empty one, and the generated one when the caller gave
    none or the empty string. *)
Theorem result_fields (uuid : string) (input : TranscribeChunkInput)
    (w0 : World) (k : Pending.t) (w w' : World) (r : Result.t) :
  call uuid input w0 k w w' r →
  (∃ s', heap w' !! Pending.session k = Some s'
         ∧ Result.partial_transcript r = Session.accumulated_text s')
  ∧ (∃ w1 s1, enter uuid input w0 = (w1, inr k)
              ∧ names w1 (Result.session_id r) (Pending.session k) s1)
  ∧ (∀ sid, session_id input = Some sid → sid ≠ "" → Result.session_id r = sid)
  ∧ (session_id input = None ∨ session_id input = Some "" →
     Result.session_id r = uuid).
Proof.
  intros Hcall.
  destruct (call_inv _ _ _ _ _ _ _ Hcall)
    as (w1 & s1 & s & He & Hnames & Hs & _ & -> & ->).
  destruct (enter_state _ _ _ _ _ He)
    as (_ & _ & _ & _ & _ & Hsid & _).
  destruct (resume_spec k w) as (Hheap & _ & _ & _ & ->). rewrite Hheap.
  cbn [Result.session_id Result.partial_transcript].
  split; [|split; [|split]].
  - eexists. split; [apply lookup_insert_eq|done].
  - by exists w1, s1.
  - intros sid Hin Hne. rewrite Hsid, Hin. simpl.
    by apply truthy_true in Hne as ->.
  - intros [Hin|Hin]; by rewrite Hsid, Hin.
Qed.

Lemma result_fields_witness :
  (∃ s', heap first_result.1 !! Pending.session first_k = Some s'
         ∧ Result.partial_transcript first_result.2 = Session.accumulated_text s')
  ∧ (∃ w1 s1, enter "u" first_request init = (w1, inr first_k)
              ∧ names w1 (Result.session_id first_result.2)
                      (Pending.session first_k) s1)
  ∧ (∀ sid, session_id first_request = Some sid → sid ≠ "" →
            Result.session_id first_result.2 = sid)
  ∧ (session_id first_request = None ∨ session_id first_request = Some "" →
     Result.session_id first_result.2 = "u").
Proof.
  apply (result_fields "u" first_request init first_k first_resumed).
  apply (call_intro "u" first_request init
           (enter "u" first_request init).1 first_k
           (enter "u" first_request init).1 0 10 10).
  - vm_compute. reflexivity.
  - apply rtc_refl.
  - vm_compute. reflexivity.
  - lia.
  - vm_compute. congruence.
Defined.

(** C7 as stated fails: a caller who gives the empty string as session
    id gets back the generated identifier, not the one given. *)
Lemma result_fields_counterexample :
  let input := request (tone 100 Byte.x4b) "A" (Some "") in
  ∃ r, (transcribeMeetingChunk "u" input init).2 = inr r
       ∧ session_id input = Some ""
       ∧ Result.session_id r ≠ "".
Proof.
  eexists. split; [vm_compute; reflexivity|]. split; [done|]. simpl. congruence.
Qed.

(** ** Eviction *)

(** C8, as amended.  A call that returns [is_final = true] removes
    nothing from the store itself: the store it leaves is the store it
    resumed in, and the removal of its session id is only put on the
    timer list, due 5000 ms later.  So if the id still names the call's
    session when the call resumes, as it does whenever nothing else ran
    while the call was suspended, it still names it right after the call
    returns, with the updated state. *)
Theorem final_chunk_keeps_session (uuid : string) (input : TranscribeChunkInput)
    (w0 : World) (k : Pending.t) (w w' : World) (r : Result.t) :
  call uuid input w0 k w w' r →
  Result.is_final r = true →
  transcriptionSessions w' = transcriptionSessions w
  ∧ timers w' = timers w ++ [(clock w + 5000, Evict (Result.session_id r))]
  ∧ (∃ s', heap w' !! Pending.session k = Some s'
           ∧ Session.accumulated_text s' = Result.partial_transcript r
           ∧ (transcriptionSessions w !! Result.session_id r
                = Some (Pending.session k) →
              names w' (Result.session_id r) (Pending.session k) s'))
  ∧ (∀ i t, w = pop i t (enter uuid input w0).1 →
            transcriptionSessions w !! Result.session_id r
            = Some (Pending.session k)).
Proof.
  intros Hcall.
  destruct (call_inv _ _ _ _ _ _ _ Hcall)
    as (w1 & s1 & s & He & [Hnames _] & Hs & _ & -> & ->).
  destruct (resume_spec k w) as (Hheap & Hstore & _ & Htimers & ->).
  cbn [Result.session_id Result.partial_transcript Result.is_final].
  intros Hfinal. rewrite Hfinal in Htimers.
  split; [done|]. split; [done|]. split.
  - eexists. split; [rewrite Hheap; apply lookup_insert_eq|].
    split; [done|]. intros Hin. split; [by rewrite Hstore|].
    rewrite Hheap. apply lookup_insert_eq.
  - intros i t ->. by rewrite He.
Qed.

Lemma final_chunk_keeps_session_witness :
  transcriptionSessions early_result.1 = transcriptionSessions early_resumed
  ∧ timers early_result.1
    = timers early_resumed
      ++ [(clock early_resumed + 5000, Evict (Result.session_id early_result.2))]
  ∧ (∃ s', heap early_result.1 !! Pending.session early_k = Some s'
           ∧ Session.accumulated_text s' = Result.partial_transcript early_result.2
           ∧ (transcriptionSessions early_resumed !! Result.session_id early_result.2
                = Some (Pending.session early_k) →
              names early_result.1 (Result.session_id early_result.2)
                    (Pending.session early_k) s'))
  ∧ (∀ i t, early_resumed = pop i t (enter "u" late_request init).1 →
            transcriptionSessions early_resumed !! Result.session_id early_result.2
            = Some (Pending.session early_k)).
Proof.
  apply (final_chunk_keeps_session "u" late_request init early_k early_resumed).
  - apply (call_intro "u" late_request init
             (enter "u" late_request init).1 early_k
             (enter "u" late_request init).1 0 10 10).
    + vm_compute. reflexivity.
    + apply rtc_refl.
    + vm_compute. reflexivity.
    + lia.
    + vm_compute. congruence.
  - vm_compute. reflexivity.
Defined.

(** C8 as stated fails.  The world [world_final] is reached from the
    initial one; the second call for "s" is made in it at time 5005,
    the eviction scheduled by the first call fires at 5010, and the
    second call resumes at 5015: it returns [is_final = true] and the
    whole text, but right after it returns the store has no session
    under its id. *)
Lemma final_chunk_evicted_counterexample :
  rtc step init world_final
  ∧ call "u" late_request (advance 5005 world_final) late_k
         late_resumed late_result.1 late_result.2
  ∧ late_result.2 = Result.mk "Hello and" "s" true
  ∧ transcriptionSessions late_result.1 !! "s" = None.
Proof.
  split; [|split; [|split]].
  - eapply rtc_l; [apply (step_request init 0 "u" late_request); simpl; lia|].
    apply rtc_once.
    assert (world_final
            = (resume early_k
                 (pop 0 10 (enter "u" late_request (advance 0 init)).1)).1)
      as -> by (vm_compute; reflexivity).
    apply (step_resume _ 10 0 10).
    + vm_compute. reflexivity.
    + lia.
    + vm_compute. congruence.
  - apply (call_intro "u" late_request (advance 5005 world_final)
             world_late late_k world_evicted 0 5015 5015).
    + vm_compute. reflexivity.
    + apply rtc_once.
      apply (step_evict world_late 5010 0 5010 "s").
      * vm_compute. reflexivity.
      * lia.
      * vm_compute. congruence.
    + vm_compute. reflexivity.
    + lia.
    + vm_compute. congruence.
  - vm_compute. reflexivity.
  - vm_compute. reflexivity.
Qed.

(** ** Short fragments and stale identifiers *)

Section Acceptance.

Implicit Types (w : World) (l : loc) (s : Session.t) (k : Pending.t).

(** The three checks pass when the fragment and the workspace id are
    not empty and the resolved id is free or names a session of the
    same workspace. *)
Lemma enter_accepts uuid chunk ws sid w0 :
  chunkSize chunk ≠ 0%nat → ws ≠ "" →
  (transcriptionSessions w0 !! resolveSessionId sid uuid = None
   ∨ ∃ l s, names w0 (resolveSessionId sid uuid) l s
            ∧ Session.workspace_id s = ws) →
  ∃ w1 k, enter uuid (request chunk ws sid) w0 = (w1, inr k).
Proof.
  intros Hsize Hws Hfree. unfold enter, request. simpl.
  apply Nat.eqb_neq in Hsize as ->. apply truthy_true in Hws as ->. simpl.
  destruct Hfree as [Hnone|(l & s & [Hl Hs] & Heq)].
  - unfold getOrCreate. rewrite Hnone. cbn [heap].
    rewrite lookup_total_insert_eq. simpl. rewrite String.eqb_refl. simpl.
    by eexists _, _.
  - rewrite (getOrCreate_found _ _ _ _ Hl), (lookup_total_correct _ _ _ Hs).
    rewrite Heq, String.eqb_refl. simpl. by eexists _, _.
Qed.

Lemma short_token (audioData : list Byte.byte) p :
  (length audioData < 100)%nat → processAudioChunk audioData p = "".
Proof.
  intros H. unfold processAudioChunk.
  by apply Nat.ltb_lt in H as ->.
Qed.

Lemma chunkSize_audioData chunk : length (audioData chunk) = chunkSize chunk.
Proof. by destruct chunk. Qed.

(** Every token of the classifier is empty or survives trimming. *)
Lemma token_trim audioData p :
  Js.truthy (Js.trim (processAudioChunk audioData p))
  = Js.truthy (processAudioChunk audioData p).
Proof.
  unfold processAudioChunk.
  repeat match goal with |- context [if ?b then _ else _] => destruct b end;
    reflexivity.
Qed.

End Acceptance.

(** C6, as amended.  A call with a fragment of at least one and fewer
    than 100 bytes and a non-empty workspace id, whose resolved session
    id is free or names a session of the same workspace, is accepted and
    returns; entering, it adds one to the session's chunk count and
    leaves its text alone; resuming, it leaves the session object as it
    finds it, and returns that text. *)
Theorem short_fragment (uuid : string) (chunk : AudioChunk) (ws : string)
    (sid : option string) (w0 : World) :
  (0 < chunkSize chunk < 100)%nat → ws ≠ "" →
  let sessionId := resolveSessionId sid uuid in
  (transcriptionSessions w0 !! sessionId = None
   ∨ ∃ l s, names w0 sessionId l s ∧ Session.workspace_id s = ws) →
  ∃ w1 k,
    enter uuid (request chunk ws sid) w0 = (w1, inr k)
    ∧ (∀ l s, names w0 sessionId l s →
         ∃ s1, names w1 sessionId l s1
               ∧ Pending.session k = l
               ∧ Session.chunk_count s1 = Session.chunk_count s + 1
               ∧ Session.accumulated_text s1 = Session.accumulated_text s)
    ∧ (transcriptionSessions w0 !! sessionId = None →
       names w1 sessionId (Pending.session k) (Session.mk ws "" 1 (clock w0)))
    ∧ (∀ w s, heap w !! Pending.session k = Some s →
         heap (resume k w).1 = heap w
         ∧ Result.partial_transcript (resume k w).2 = Session.accumulated_text s).
Proof.
  intros [Hpos Hshort] Hws sessionId Hfree.
  destruct (enter_accepts uuid chunk ws sid w0) as (w1 & k & He);
    [lia|done|done|].
  exists w1, k. split; [done|].
  pose proof (enter_state _ _ _ _ _ He)
    as (chunk' & s1 & [= <-] & Hdata & _ & Hsid & _ & Hnames & _).
  simpl in Hsid. fold sessionId in Hsid. rewrite Hsid in Hnames.
  pose proof (enter_suspended _ _ _ _ _ He)
    as (_ & ws' & wg & _ & _ & [= <-] & _ & Hg & _ & _ & Hw1).
  simpl in Hg. fold sessionId in Hg.
  split; [|split].
  - intros l s [Hl Hs]. rewrite (getOrCreate_found _ _ _ _ Hl) in Hg.
    injection Hg as Hwg Hk. subst wg l.
    rewrite (lookup_total_correct _ _ _ Hs) in Hw1.
    exists (incr_chunk_count s). split; [|done].
    destruct Hnames as [Hn1 Hn2]. split; [done|].
    rewrite Hw1. simpl. apply lookup_insert_eq.
  - intros Hnone.
    destruct (getOrCreate_fresh _ _ _ _ _ Hnone Hg) as (_ & Hheap & _).
    destruct Hnames as [Hn1 _]. split; [done|].
    rewrite Hw1. simpl. rewrite lookup_insert_eq. f_equal.
    by rewrite Hheap, lookup_total_insert_eq.
  - intros w s Hs. destruct (resume_spec k w) as (-> & _ & _ & _ & ->).
    rewrite short_token by (rewrite Hdata, chunkSize_audioData; lia).
    rewrite (lookup_total_correct _ _ _ Hs). simpl.
    split; [|done]. rewrite session_eta. by apply insert_id.
Qed.

Lemma short_fragment_witness :
  ∃ w1 k,
    enter "u" (request (tone 50 Byte.x80) "A" (Some "s")) world_A = (w1, inr k)
    ∧ (∀ l s, names world_A "s" l s →
         ∃ s1, names w1 "s" l s1
               ∧ Pending.session k = l
               ∧ Session.chunk_count s1 = Session.chunk_count s + 1
               ∧ Session.accumulated_text s1 = Session.accumulated_text s)
    ∧ (transcriptionSessions world_A !! "s" = None →
       names w1 "s" (Pending.session k) (Session.mk "A" "" 1 (clock world_A)))
    ∧ (∀ w s, heap w !! Pending.session k = Some s →
         heap (resume k w).1 = heap w
         ∧ Result.partial_transcript (resume k w).2 = Session.accumulated_text s).
Proof.
  apply (short_fragment "u" (tone 50 Byte.x80) "A" (Some "s") world_A).
  - vm_compute. lia.
  - congruence.
  - right. exists 1%positive, (Session.mk "A" "Welcome" 1 0).
    split; [split; vm_compute; reflexivity|reflexivity].
Defined.

(** C6 as stated fails: a fragment of no bytes is shorter than 100
    bytes, but the call is rejected, and no chunk is counted. *)
Lemma short_fragment_counterexample :
  let chunk := Uint8Array [] in
  (chunkSize chunk < 100)%nat
  ∧ ∃ e, enter "u" (request chunk "A" (Some "s")) world_A = (world_A, inl e).
Proof.
  split; [simpl; lia|]. eexists. vm_compute. reflexivity.
Qed.

(** C10, as amended.  A call with a non-empty fragment and a non-empty
    workspace id that gives a non-empty session id which the store does
    not have is accepted: a new session object is created and stored
    under exactly that id, with chunk count 0, empty text and the
    request's workspace id; the call then counts its chunk on it, as
    chunk number 1, and if nothing else runs before it resumes, returns
    the token of a first chunk as the whole transcript. *)
Theorem stale_id_starts_afresh (uuid : string) (chunk : AudioChunk)
    (ws sid : string) (w0 : World) :
  chunkSize chunk ≠ 0%nat → ws ≠ "" → sid ≠ "" →
  transcriptionSessions w0 !! sid = None →
  ∃ w1 k wg,
    enter uuid (request chunk ws (Some sid)) w0 = (w1, inr k)
    ∧ heap w0 !! Pending.session k = None
    ∧ getOrCreate sid ws w0 = (wg, Pending.session k)
    ∧ names wg sid (Pending.session k) (Session.mk ws "" 0 (clock w0))
    ∧ names w1 sid (Pending.session k) (Session.mk ws "" 1 (clock w0))
    ∧ Pending.chunkNumber k = 1
    ∧ ∀ i t, (resume k (pop i t w1)).2
             = Result.mk (processAudioChunk (audioData chunk) 1) sid
                         (shouldMarkAsFinal (audioData chunk) 1).
Proof.
  intros Hsize Hws Hsid Hnone.
  assert (resolveSessionId (Some sid) uuid = sid) as Hres.
  { simpl. by apply truthy_true in Hsid as ->. }
  destruct (enter_accepts uuid chunk ws (Some sid) w0) as (w1 & k & He);
    [done|done|left; by rewrite Hres|].
  pose proof (enter_suspended _ _ _ _ _ He)
    as (chunk' & ws' & wg & [= <-] & _ & [= <-] & _ & Hg & _ & Hk & Hw1).
  unfold request in Hg, Hk. cbn [session_id] in Hg, Hk. rewrite Hres in Hg, Hk.
  destruct (getOrCreate_fresh _ _ _ _ _ Hnone Hg)
    as (Hfresh & Hheap & Hstore & _ & _).
  assert (heap wg !!! Pending.session k = Session.mk ws "" 0 (clock w0)) as Hs0.
  { by rewrite Hheap, lookup_total_insert_eq. }
  rewrite Hs0 in Hk, Hw1. simpl in Hk, Hw1.
  assert (names w1 sid (Pending.session k) (Session.mk ws "" 1 (clock w0)))
    as Hnames.
  { rewrite Hw1. split; simpl.
    - rewrite Hstore. apply lookup_insert_eq.
    - apply lookup_insert_eq. }
  exists w1, k, wg. split; [done|]. split; [done|]. split; [done|].
  split.
  { split; [rewrite Hstore|rewrite Hheap]; apply lookup_insert_eq. }
  split; [done|]. split; [by rewrite Hk|].
  intros i t. destruct (resume_spec k (pop i t w1)) as (_ & _ & _ & _ & ->).
  cbn [heap pop]. rewrite (lookup_total_correct _ _ _ (proj2 Hnames)).
  rewrite Hk. simpl. f_equal.
  rewrite token_trim. unfold appended. rewrite decide_True by done.
  by destruct (processAudioChunk _ _).
Qed.

Lemma stale_id_starts_afresh_witness :
  ∃ w1 k wg,
    enter "u" (request (tone 100 Byte.x4b) "A" (Some "t")) world_A = (w1, inr k)
    ∧ heap world_A !! Pending.session k = None
    ∧ getOrCreate "t" "A" world_A = (wg, Pending.session k)
    ∧ names wg "t" (Pending.session k) (Session.mk "A" "" 0 (clock world_A))
    ∧ names w1 "t" (Pending.session k) (Session.mk "A" "" 1 (clock world_A))
    ∧ Pending.chunkNumber k = 1
    ∧ ∀ i t, (resume k (pop i t w1)).2
             = Result.mk (processAudioChunk (audioData (tone 100 Byte.x4b)) 1) "t"
                         (shouldMarkAsFinal (audioData (tone 100 Byte.x4b)) 1).
Proof.
  apply (stale_id_starts_afresh "u" (tone 100 Byte.x4b) "A" "t" world_A).
  - vm_compute. lia.
  - congruence.
  - congruence.
  - vm_compute. reflexivity.
Defined.

(** C10 as stated fails twice over.  The empty string is in no store,
    but a call that gives it as session id stores its session under the
    generated identifier and nothing under the empty string; and a call
    that gives an unused id together with an empty fragment fails. *)
Lemma stale_id_counterexample :
  let given := request (tone 100 Byte.x4b) "A" (Some "") in
  let empty := request (Uint8Array []) "A" (Some "t") in
  (transcriptionSessions init !! "" = None
   ∧ transcriptionSessions (transcribeMeetingChunk "u" given init).1 !! "" = None
   ∧ transcriptionSessions (transcribeMeetingChunk "u" given init).1 !! "u"
     = Some 1%positive)
  ∧ (transcriptionSessions init !! "t" = None
     ∧ ∃ e, enter "u" empty init = (init, inl e)).
Proof.
  repeat split; try (vm_compute; reflexivity).
  eexists. vm_compute. reflexivity.
Qed.

(** ** Accumulation *)

(** C3. A session's text is only ever extended, one token per processed
    chunk at most.  In one turn of the event loop (a call entering, a
    call resuming and finishing its chunk, an eviction) the text of any
    session object stays what it was or gets one non-blank token
    appended: after a single separating space, or with nothing before
    it when the text was empty.  So over any run the text after is the
    text before followed by appended tokens: nothing is removed and
    nothing reordered.  And the turn in which a call finishes its chunk
    appends that chunk's own token, the one the classifier gives for its
    bytes in its position, when it is not empty, and leaves the text
    alone when it is; the transcript returned is the text so obtained. *)
Theorem monotonic_accumulation (w w' : World) (l : loc) (s : Session.t) :
  heap w !! l = Some s →
  (step w w' →
   ∃ s', heap w' !! l = Some s'
         ∧ (Session.accumulated_text s' = Session.accumulated_text s
            ∨ ∃ token,
                nonblank token
                ∧ Session.accumulated_text s'
                  = if decide (Session.accumulated_text s = "") then token
                    else Session.accumulated_text s +:+ " " +:+ token))
  ∧ (rtc step w w' →
     ∃ s', heap w' !! l = Some s'
           ∧ extends (Session.accumulated_text s) (Session.accumulated_text s'))
  ∧ (∀ uuid input w0 k r,
       call uuid input w0 k w w' r → Pending.session k = l →
       ∃ chunk s',
         audio_chunk input = Some chunk
         ∧ heap w' !! l = Some s'
         ∧ Result.partial_transcript r = Session.accumulated_text s'
         ∧ let token :=
             processAudioChunk (audioData chunk)
                               (chunksBefore w0 (Result.session_id r) + 1) in
           Session.accumulated_text s'
           = if decide (token = "") then Session.accumulated_text s
             else if decide (Session.accumulated_text s = "") then token
                  else Session.accumulated_text s +:+ " " +:+ token).
Proof.
  intros Hl. split; [|split].
  - intros Hstep.
    destruct (step_session _ _ _ _ Hstep Hl) as [H|[H|(token & Hb & H)]];
      eexists; (split; [exact H|]).
    + by left.
    + by left.
    + right. by exists token.
  - intros Hsteps.
    destruct (steps_evolve _ _ _ _ Hsteps Hl) as (s' & Hl' & _ & _ & _ & Hext).
    by exists s'.
  - intros uuid input w0 k r Hcall Hk.
    destruct (call_inv _ _ _ _ _ _ _ Hcall)
      as (w1 & s1 & s2 & He & _ & Hs2 & _ & Hw' & ->).
    destruct (enter_state _ _ _ _ _ He)
      as (chunk & _ & Hin & Hdata & _ & _ & Hnum & _).
    destruct (resume_spec k w) as (Hheap & _ & _ & _ & Hr).
    rewrite Hk, Hl in Hs2. injection Hs2 as <-.
    rewrite Hk, (lookup_total_correct _ _ _ Hl) in Hheap, Hr.
    rewrite Hr. cbn [Result.partial_transcript Result.session_id].
    eexists chunk, _. split; [done|]. split.
    { rewrite Hw', Hheap. apply lookup_insert_eq. }
    split; [done|]. cbv zeta. cbn [Session.accumulated_text].
    rewrite <- Hdata, <- Hnum, token_trim. unfold appended.
    destruct (processAudioChunk _ _) eqn:Htok; simpl; by repeat case_decide.
Qed.

Lemma monotonic_accumulation_witness :
  let s := Session.mk "A" "Hello" 2 0 in
  heap late_resumed !! 1%positive = Some s
  ∧ ∃ chunk s',
      audio_chunk late_request = Some chunk
      ∧ heap late_result.1 !! 1%positive = Some s'
      ∧ Result.partial_transcript late_result.2 = Session.accumulated_text s'
      ∧ Session.accumulated_text s' = "Hello and".
Proof.
  intros s.
  assert (heap late_resumed !! 1%positive = Some s) as Hl
    by (vm_compute; reflexivity).
  split; [exact Hl|].
  destruct (monotonic_accumulation late_resumed late_result.1 1%positive s Hl)
    as (_ & _ & Hcall).
  destruct (Hcall "u" late_request (advance 5005 world_final) late_k late_result.2)
    as (chunk & s' & Hin & Hs' & Hr & Htext).
  - apply (call_intro "u" late_request (advance 5005 world_final)
             world_late late_k world_evicted 0 5015 5015).
    + vm_compute. reflexivity.
    + apply rtc_once.
      apply (step_evict world_late 5010 0 5010 "s").
      * vm_compute. reflexivity.
      * lia.
      * vm_compute. congruence.
    + vm_compute. reflexivity.
    + lia.
    + vm_compute. congruence.
  - reflexivity.
  - exists chunk, s'. split; [exact Hin|]. split; [exact Hs'|].
    split; [exact Hr|]. rewrite Htext.
    injection Hin as <-. vm_compute. reflexivity.
Defined.

(** * Further properties of the handler *)

(** ** Byte sums *)

Section Sums.

Lemma fold_sum_from (acc : Z) (l : list Byte.byte) :
  fold_left (λ sum b, sum + byte_value b) l acc = acc + dataSum l.
Proof.
  unfold dataSum. revert acc. induction l as [|b l IH]; intros acc; simpl.
  - lia.
  - rewrite (IH (acc + byte_value b)), (IH (0 + byte_value b)). lia.
Qed.

Lemma dataSum_cons b l : dataSum (b :: l) = byte_value b + dataSum l.
Proof. unfold dataSum at 1. simpl. rewrite fold_sum_from. lia. Qed.

Lemma byte_value_range b : 0 ≤ byte_value b ≤ 255.
Proof.
  unfold byte_value. pose proof (Byte.to_N_bounded b). lia.
Qed.

Lemma dataSum_between lo hi (l : list Byte.byte) :
  Forall (λ b, lo ≤ byte_value b ≤ hi) l →
  lo * Z.of_nat (length l) ≤ dataSum l ≤ hi * Z.of_nat (length l).
Proof.
  induction 1 as [|b l Hb _ IH].
  - unfold dataSum. simpl. lia.
  - rewrite dataSum_cons. simpl length. lia.
Qed.

Lemma dataSum_Permutation (l l' : list Byte.byte) :
  l ≡ₚ l' → dataSum l = dataSum l'.
Proof.
  induction 1 as [|b l l' _ IH|a b l|l l' l'' _ IH1 _ IH2].
  - done.
  - by rewrite !dataSum_cons, IH.
  - rewrite !dataSum_cons. lia.
  - congruence.
Qed.

Lemma mean_between lo hi (l : list Byte.byte) :
  l ≠ [] →
  Forall (λ b, lo ≤ byte_value b ≤ hi) l →
  (inject_Z lo <= mean l)%Q ∧ (mean l <= inject_Z hi)%Q.
Proof.
  intros Hne Hall. pose proof (dataSum_between lo hi l Hall) as [H1 H2].
  assert (Z.pos (Pos.of_nat (length l)) = Z.of_nat (length l)) as Hpos.
  { destruct l; [done|]. simpl length. lia. }
  unfold Qle, mean, inject_Z. cbn [Qnum Qden]. rewrite Hpos. lia.
Qed.

End Sums.

(** X1. The byte sum of [n] bytes lies between 0 and 255 n, and the mean
    of a non-empty sequence between 0 and 255. *)
Theorem byte_sum_bounds (audioData : list Byte.byte) :
  0 ≤ dataSum audioData ≤ 255 * Z.of_nat (length audioData)
  ∧ (audioData ≠ [] → (0 <= mean audioData)%Q ∧ (mean audioData <= 255)%Q).
Proof.
  assert (Forall (λ b, 0 ≤ byte_value b ≤ 255) audioData) as Hall.
  { apply Forall_forall. intros b _. apply byte_value_range. }
  split.
  - pose proof (dataSum_between 0 255 audioData Hall). lia.
  - intros Hne. by apply (mean_between 0 255).
Qed.

(** X2. The classifier and the finality check do not see the order of
    the bytes: two sequences with the same bytes in any order get the
    same token and the same finality signal. *)
Theorem classifier_order_blind (audioData audioData' : list Byte.byte) (p : Z) :
  audioData ≡ₚ audioData' →
  processAudioChunk audioData p = processAudioChunk audioData' p
  ∧ shouldMarkAsFinal audioData p = shouldMarkAsFinal audioData' p.
Proof.
  intros Hperm.
  assert (avgValue audioData = avgValue audioData') as Havg.
  { unfold avgValue.
    by rewrite (dataSum_Permutation _ _ Hperm), (Permutation_length Hperm). }
  unfold processAudioChunk, shouldMarkAsFinal.
  by rewrite Havg, (Permutation_length Hperm).
Qed.

Lemma classifier_order_blind_witness :
  processAudioChunk (repeat Byte.x05 99 ++ [Byte.xff]) 1
  = processAudioChunk (Byte.xff :: repeat Byte.x05 99) 1
  ∧ shouldMarkAsFinal (repeat Byte.x05 99 ++ [Byte.xff]) 1
    = shouldMarkAsFinal (Byte.xff :: repeat Byte.x05 99) 1.
Proof.
  apply (classifier_order_blind (repeat Byte.x05 99 ++ [Byte.xff])
           (Byte.xff :: repeat Byte.x05 99) 1).
  symmetry. apply Permutation_cons_append.
Defined.

(** ** Fragments of 100 bytes or more *)

Section Strings.

Lemma length_append (a b : string) :
  String.length (a +:+ b) = (String.length a + String.length b)%nat.
Proof. induction a as [|c a IH]; simpl; [done|by rewrite IH]. Qed.

Lemma append_assoc (a b c : string) : (a +:+ b) +:+ c = a +:+ (b +:+ c).
Proof.
  induction a as [|x a IH]; [done|].
  change (String x ((a +:+ b) +:+ c) = String x (a +:+ b +:+ c)).
  by rewrite IH.
Qed.

Lemma length_pos (a : string) : a ≠ "" → (0 < String.length a)%nat.
Proof. destruct a; simpl; [done|lia]. Qed.

Lemma appended_longer text token :
  token ≠ "" → (String.length text < String.length (appended text token))%nat.
Proof.
  intros Hne. apply length_pos in Hne. unfold appended. case_decide as Ht.
  - subst text. simpl. lia.
  - rewrite !length_append. simpl. lia.
Qed.

Lemma long_token (audioData : list Byte.byte) p :
  (100 ≤ length audioData)%nat → processAudioChunk audioData p ≠ "".
Proof.
  intros Hlen. unfold processAudioChunk. rewrite size_test by done.
  repeat match goal with |- context [if ?b then _ else _] => destruct b end;
    done.
Qed.

End Strings.

(** X3. A chunk of 100 bytes or more always says something: when its
    call resumes, its token, which is not empty, is appended to the text
    of its session, and the transcript returned is strictly longer than
    the text was.  With C6 this makes 100 bytes the exact threshold from
    which a chunk changes the transcript. *)
Theorem long_fragment_appends (k : Pending.t) (w : World) (s : Session.t) :
  (100 ≤ length (Pending.audioData k))%nat →
  heap w !! Pending.session k = Some s →
  let token := processAudioChunk (Pending.audioData k) (Pending.chunkNumber k) in
  token ≠ ""
  ∧ heap (resume k w).1 !! Pending.session k = Some (append_token token s)
  ∧ Result.partial_transcript (resume k w).2
    = appended (Session.accumulated_text s) token
  ∧ (String.length (Session.accumulated_text s)
     < String.length (Result.partial_transcript (resume k w).2))%nat.
Proof.
  intros Hlen Hs token.
  pose proof (long_token _ (Pending.chunkNumber k) Hlen) as Htok.
  fold token in Htok.
  destruct (resume_spec k w) as (Hheap & _ & _ & _ & Hr).
  rewrite Hheap, Hr, (lookup_total_correct _ _ _ Hs), lookup_insert_eq.
  cbn [Result.partial_transcript Session.accumulated_text].
  rewrite token_trim. fold token.
  apply truthy_true in Htok as Ht. rewrite Ht.
  split; [done|]. split; [done|]. split; [done|].
  by apply appended_longer.
Qed.

Lemma long_fragment_appends_witness :
  let token := processAudioChunk (Pending.audioData late_k)
                 (Pending.chunkNumber late_k) in
  let s := Session.mk "A" "Hello" 2 0 in
  token ≠ ""
  ∧ heap (resume late_k world_late).1 !! Pending.session late_k
    = Some (append_token token s)
  ∧ Result.partial_transcript (resume late_k world_late).2
    = appended (Session.accumulated_text s) token
  ∧ (String.length (Session.accumulated_text s)
     < String.length (Result.partial_transcript (resume late_k world_late).2))%nat.
Proof.
  apply (long_fragment_appends late_k world_late (Session.mk "A" "Hello" 2 0)).
  - vm_compute. lia.
  - vm_compute. reflexivity.
Defined.

(** ** What one turn of the event loop does to the world *)

Section Effects.

Implicit Types (w : World) (l : loc) (s : Session.t) (k : Pending.t).

(** The three things [enter] can do: nothing (the call is rejected),
    count a chunk on the session its id names, or create a session
    under its id with that chunk counted. *)
Lemma enter_cases uuid input w :
  let sid := resolveSessionId (session_id input) uuid in
  (enter uuid input w).1 = w
  ∨ (∃ l k,
       transcriptionSessions w !! sid = Some l
       ∧ Pending.sessionId k = sid ∧ Pending.session k = l
       ∧ (enter uuid input w).1
         = setTimeout (Resume k) 10 (write l (incr_chunk_count (heap w !!! l)) w))
  ∨ (∃ l k ws,
       transcriptionSessions w !! sid = None ∧ heap w !! l = None ∧ ws ≠ ""
       ∧ Pending.sessionId k = sid ∧ Pending.session k = l
       ∧ (enter uuid input w).1
         = setTimeout (Resume k) 10
             {| heap := <[l := Session.mk ws "" 1 (clock w)]> (heap w);
                transcriptionSessions := <[sid := l]> (transcriptionSessions w);
                timers := timers w;
                clock := clock w |}).
Proof.
  intros sid. destruct (enter uuid input w) as [w1 [e|k]] eqn:He.
  - left. by apply enter_rejected in He as [-> _].
  - right. simpl.
    pose proof (enter_suspended _ _ _ _ _ He)
      as (chunk & ws & wg & _ & _ & _ & Hws & Hg & _ & Hk & ->).
    fold sid in Hg, Hk.
    pose proof (f_equal Pending.sessionId Hk) as Hsid. simpl in Hsid.
    destruct (transcriptionSessions w !! sid) as [l|] eqn:Hl.
    + left. rewrite (getOrCreate_found _ _ _ _ Hl) in Hg.
      injection Hg as Hwg Hkl. subst wg. exists l, k.
      by rewrite <- Hkl.
    + right. destruct (getOrCreate_fresh _ _ _ _ _ Hl Hg)
        as (Hfresh & Hheap & Hstore & Htimers & Hclock).
      exists (Pending.session k), k, ws.
      split; [done|]. split; [done|]. split; [done|].
      split; [done|]. split; [done|].
      unfold setTimeout, write. simpl.
      rewrite Hheap, Hstore, Htimers, Hclock, lookup_total_insert_eq.
      by rewrite insert_insert_eq.
Qed.

Lemma sane_later now now' s : now ≤ now' → sane now s → sane now' s.
Proof. intros Hle (? & ? & ?). unfold sane. repeat split; [done|done|lia]. Qed.

Lemma all_sane_init : all_sane init.
Proof. split; [apply well_formed_init|]. by intros l s. Qed.

Lemma all_sane_enter uuid input w :
  all_sane w → all_sane (enter uuid input w).1.
Proof.
  intros [Hwf Hs]. split; [by apply well_formed_enter|].
  destruct (enter_cases uuid input w)
    as [->|[(l & k & Hl & _ & _ & ->)|(l & k & ws & _ & Hnew & Hws & _ & _ & ->)]];
    [done| |]; simpl; intros l' s'.
  - destruct (decide (l = l')) as [<-|Hne].
    + rewrite lookup_insert_eq. intros [= <-].
      destruct Hwf as [Hstore _]. apply Hstore, elem_of_dom in Hl as [s Hsl].
      rewrite (lookup_total_correct _ _ _ Hsl).
      destruct (Hs _ _ Hsl) as (? & ? & ?). unfold sane. simpl.
      repeat split; [done|lia|done].
    + rewrite lookup_insert_ne by done. apply Hs.
  - destruct (decide (l = l')) as [<-|Hne].
    + rewrite lookup_insert_eq. intros [= <-]. unfold sane. simpl.
      repeat split; [done|lia|lia].
    + rewrite lookup_insert_ne by done. apply Hs.
Qed.

Lemma all_sane_resume i t due k w :
  timers w !! i = Some (due, Resume k) → clock w ≤ t →
  all_sane w → all_sane (resume k (pop i t w)).1.
Proof.
  intros Hi Ht [Hwf Hs]. split; [by apply well_formed_resume, well_formed_pop|].
  destruct (resume_spec k (pop i t w)) as (-> & _ & -> & _). simpl.
  intros l' s'. destruct (decide (Pending.session k = l')) as [<-|Hne].
  - rewrite lookup_insert_eq. intros [= <-].
    destruct Hwf as [_ Htimers].
    pose proof (proj1 (Forall_lookup _ _) Htimers _ _ Hi) as Hk. simpl in Hk.
    apply elem_of_dom in Hk as [s Hsl].
    rewrite (lookup_total_correct _ _ _ Hsl).
    destruct (Hs _ _ Hsl) as (? & ? & ?). unfold sane. simpl.
    repeat split; [done|done|lia].
  - rewrite lookup_insert_ne by done. intros Hl'.
    apply (sane_later (clock w)); [done|]. by apply (Hs l').
Qed.

Lemma all_sane_step w w' : step w w' → all_sane w → all_sane w'.
Proof.
  intros [w0 t uuid input Ht|w0 t i due k Hi _ Ht|w0 t i due sid Hi Hdue Ht] Hw.
  - apply all_sane_enter. destruct Hw as [Hwf Hs]. split; [done|].
    intros l s Hl. apply (sane_later (clock w0)); [done|]. by apply (Hs l).
  - by eapply all_sane_resume.
  - destruct Hw as [Hwf Hs]. split.
    + apply (well_formed_steps w0); [|done]. apply rtc_once.
      by apply (step_evict w0 t i due sid).
    + intros l s Hl. apply (sane_later (clock w0)); [done|]. by apply (Hs l).
Qed.

Lemma all_sane_reachable w : reachable w → all_sane w.
Proof.
  unfold reachable. intros Hsteps.
  assert (∀ w0, rtc step w0 w → all_sane w0 → all_sane w) as H.
  { induction 1 as [|w1 w2 w3 Hstep _ IH]; [done|].
    intros Hw. by apply IH, (all_sane_step w1). }
  apply (H init); [done|apply all_sane_init].
Qed.

End Effects.

(** ** Sessions over a run *)

Lemma world_A_reachable : reachable world_A.
Proof.
  unfold reachable.
  eapply rtc_l; [apply (step_request init 0 "u" first_request); simpl; lia|].
  apply rtc_once.
  assert (world_A
          = (resume first_k
               (pop 0 10 (enter "u" first_request (advance 0 init)).1)).1)
    as -> by (vm_compute; reflexivity).
  apply (step_resume _ 10 0 10).
  - vm_compute. reflexivity.
  - lia.
  - vm_compute. congruence.
Qed.

(** X4. In every world the event loop can get to, every session object
    is bound to a non-empty workspace, has at least one chunk counted,
    and was created no later than the current time: creation and the
    first increment are one uninterrupted piece of code, behind the
    workspace check. *)
Theorem sessions_sane (w : World) (l : loc) (s : Session.t) :
  reachable w →
  heap w !! l = Some s →
  Session.workspace_id s ≠ ""
  ∧ 1 ≤ Session.chunk_count s
  ∧ Session.created_at s ≤ clock w.
Proof.
  intros Hreach Hl. destruct (all_sane_reachable w Hreach) as [_ Hs].
  by apply (Hs l).
Qed.

Lemma sessions_sane_witness :
  let s := Session.mk "A" "Welcome" 1 0 in
  Session.workspace_id s ≠ ""
  ∧ 1 ≤ Session.chunk_count s
  ∧ Session.created_at s ≤ clock world_A.
Proof.
  apply (sessions_sane world_A 1%positive).
  - apply world_A_reachable.
  - vm_compute. reflexivity.
Defined.

(** X5. Over any run of the event loop a session object keeps its
    workspace id and its creation time, and its chunk count never
    decreases; the object itself is never dropped from the heap, whether
    or not the store still names it. *)
Theorem session_fields_stable (w w' : World) (l : loc) (s : Session.t) :
  rtc step w w' →
  heap w !! l = Some s →
  ∃ s', heap w' !! l = Some s'
        ∧ Session.workspace_id s' = Session.workspace_id s
        ∧ Session.created_at s' = Session.created_at s
        ∧ Session.chunk_count s ≤ Session.chunk_count s'.
Proof.
  intros Hsteps Hl.
  destruct (steps_evolve _ _ _ _ Hsteps Hl) as (s' & Hl' & Hws & Hat & Hn & _).
  by exists s'.
Qed.

Lemma session_fields_stable_witness :
  let s := Session.mk "A" "Hello" 2 0 in
  ∃ s', heap late_result.1 !! 1%positive = Some s'
        ∧ Session.workspace_id s' = Session.workspace_id s
        ∧ Session.created_at s' = Session.created_at s
        ∧ Session.chunk_count s ≤ Session.chunk_count s'.
Proof.
  apply (session_fields_stable world_late late_result.1 1%positive).
  - eapply rtc_l.
    + apply (step_evict world_late 5010 0 5010 "s").
      * vm_compute. reflexivity.
      * lia.
      * vm_compute. congruence.
    + apply rtc_once. apply (step_resume _ 5015 0 5015 late_k).
      * vm_compute. reflexivity.
      * lia.
      * vm_compute. congruence.
  - vm_compute. reflexivity.
Defined.

(** X6. One turn of the event loop changes what a session id names in
    two ways only.  An id that names nothing gets bound, by a request,
    to a session object that was not on the heap before and now has an
    empty text and one chunk counted.  An id that names a session loses
    it when an eviction timer for that id, which is due, fires.  A bound
    id is never bound to another object. *)
Theorem binding_changes (w w' : World) (sid : string) :
  step w w' →
  transcriptionSessions w' !! sid = transcriptionSessions w !! sid
  ∨ (transcriptionSessions w !! sid = None
     ∧ ∃ l ws, transcriptionSessions w' !! sid = Some l
               ∧ heap w !! l = None
               ∧ heap w' !! l = Some (Session.mk ws "" 1 (clock w')))
  ∨ (transcriptionSessions w' !! sid = None
     ∧ ∃ i due, timers w !! i = Some (due, Evict sid) ∧ due ≤ clock w').
Proof.
  intros [w0 t uuid input Ht|w0 t i due k Hi _ Ht|w0 t i due sid' Hi Hdue Ht].
  - destruct (enter_cases uuid input (advance t w0))
      as [->|[(l & k & _ & _ & _ & ->)
             |(l & k & ws & Hnone & Hnew & _ & _ & _ & ->)]];
      [by left|by left|].
    simpl in *.
    destruct (decide (resolveSessionId (session_id input) uuid = sid))
      as [Heq|Hne].
    + right. left. rewrite Heq in *. split; [done|].
      exists l, ws. by rewrite !lookup_insert_eq.
    + left. by rewrite lookup_insert_ne.
  - left. by destruct (resume_spec k (pop i t w0)) as (_ & -> & _).
  - simpl. destruct (decide (sid' = sid)) as [->|Hne].
    + right. right. rewrite lookup_delete_eq. split; [done|].
      by exists i, due.
    + left. by rewrite lookup_delete_ne.
Qed.

Lemma binding_changes_witness :
  transcriptionSessions world_evicted !! "s" = transcriptionSessions world_late !! "s"
  ∨ (transcriptionSessions world_late !! "s" = None
     ∧ ∃ l ws, transcriptionSessions world_evicted !! "s" = Some l
               ∧ heap world_late !! l = None
               ∧ heap world_evicted !! l
                 = Some (Session.mk ws "" 1 (clock world_evicted)))
  ∨ (transcriptionSessions world_evicted !! "s" = None
     ∧ ∃ i due, timers world_late !! i = Some (due, Evict "s")
                ∧ due ≤ clock world_evicted).
Proof.
  apply (binding_changes world_late world_evicted "s").
  apply (step_evict world_late 5010 0 5010 "s").
  - vm_compute. reflexivity.
  - lia.
  - vm_compute. congruence.
Defined.

(** ** Isolation of sessions *)

Section Isolation.

Implicit Types (w : World) (l : loc) (s : Session.t) (k : Pending.t).

Lemma step_for_step sid w w' : step_for sid w w' → step w w'.
Proof.
  intros [w0 t uuid input Ht _|w0 t i due k Hi Hdue Ht _|w0 t i due Hi Hdue Ht].
  - by apply step_request.
  - by apply (step_resume w0 t i due k).
  - by apply (step_evict w0 t i due sid).
Qed.

Lemma coherent_init : coherent init.
Proof.
  split; [apply well_formed_init|]. split; [by intros a b l|by constructor].
Qed.

Lemma coherent_enter uuid input w :
  coherent w → coherent (enter uuid input w).1.
Proof.
  intros (Hwf & Hinj & Hown). split; [by apply well_formed_enter|].
  destruct Hwf as [Hstore Halloc].
  destruct (enter_cases uuid input w)
    as [->|[(l & k & Hl & Hsid & Hkl & ->)
           |(l & k & ws & Hnone & Hnew & _ & Hsid & Hkl & ->)]];
    [done| |]; simpl.
  - split; [done|]. apply Forall_app. split; [done|].
    constructor; [|done]. simpl. intros b Hb. rewrite Hsid.
    rewrite Hkl in Hb. by apply (Hinj b _ l).
  - assert (∀ b, <[resolveSessionId (session_id input) uuid := l]>
                   (transcriptionSessions w) !! b = Some l →
                 b = resolveSessionId (session_id input) uuid) as Honly.
    { intros b. rewrite lookup_insert. case_decide; [done|].
      intros Hb. apply Hstore, elem_of_dom in Hb as [s Hs]. congruence. }
    split.
    + intros a b l'. rewrite !lookup_insert.
      repeat case_decide; try congruence.
      * intros [= <-] Hb. apply Hstore, elem_of_dom in Hb as [s Hs]. congruence.
      * intros Ha [= <-]. apply Hstore, elem_of_dom in Ha as [s Hs]. congruence.
      * apply Hinj.
    + apply Forall_app. split.
      * rewrite Forall_forall in Hown, Halloc. apply Forall_forall.
        intros [due [k'|sid']] Hin; [|done]. simpl. intros b.
        rewrite lookup_insert. case_decide as Hb.
        -- intros [= Heq]. specialize (Halloc _ Hin). simpl in Halloc.
           rewrite <- Heq in Halloc. apply elem_of_dom in Halloc as [s Hs].
           congruence.
        -- apply (Hown _ Hin).
      * constructor; [|done]. simpl. intros b Hb. rewrite Hsid.
        rewrite Hkl in Hb. by apply Honly.
Qed.

Lemma coherent_pop i t w : coherent w → coherent (pop i t w).
Proof.
  intros (Hwf & Hinj & Hown). split; [by apply well_formed_pop|].
  split; [done|]. simpl. by apply Forall_delete.
Qed.

Lemma coherent_resume k w : coherent w → coherent (resume k w).1.
Proof.
  intros (Hwf & Hinj & Hown). split; [by apply well_formed_resume|].
  destruct (resume_spec k w) as (_ & Hst & _ & Ht & _).
  split; [by rewrite Hst|]. rewrite Ht.
  assert (Forall (λ timer, owned (resume k w).1 timer.2) (timers w)) as H.
  { eapply Forall_impl; [exact Hown|].
    intros [due [k'|sid']] Hk; [|done]. intros b Hb. apply Hk.
    by rewrite <- Hst. }
  destruct (shouldMarkAsFinal _ _); [|done].
  apply Forall_app. split; [done|]. by repeat constructor.
Qed.

Lemma coherent_evict sid w : coherent w → coherent (evict sid w).
Proof.
  intros ([Hstore Halloc] & Hinj & Hown). split; [split|split]; simpl.
  - intros b l. rewrite lookup_delete. case_decide; [done|]. apply Hstore.
  - done.
  - intros a b l. rewrite !lookup_delete. repeat case_decide; try done.
    apply Hinj.
  - eapply Forall_impl; [exact Hown|].
    intros [due [k'|sid']]; simpl; [|done]. intros Hk b.
    rewrite lookup_delete. case_decide; [done|]. apply Hk.
Qed.

Lemma coherent_step w w' : step w w' → coherent w → coherent w'.
Proof.
  intros [w0 t uuid input Ht|w0 t i due k Hi _ Ht|w0 t i due sid Hi Hdue Ht] Hw.
  - apply coherent_enter. destruct Hw as ([? ?] & ? & ?). by repeat split.
  - by apply coherent_resume, coherent_pop.
  - by apply coherent_evict, coherent_pop.
Qed.

Lemma coherent_steps w w' : rtc step w w' → coherent w → coherent w'.
Proof.
  induction 1 as [|w1 w2 w3 Hstep _ IH]; [done|].
  intros Hw. by apply IH, (coherent_step w1).
Qed.

(** One turn for the id [A] leaves alone what another id [B] names. *)
Lemma step_for_other A B w w' l s :
  coherent w → step_for A w w' → B ≠ A →
  names w B l s → names w' B l s.
Proof.
  intros (Hwf & Hinj & Hown) Hstep Hne [Hl Hs]. unfold names.
  destruct Hstep
    as [w0 t uuid input Ht HA|w0 t i due k Hi Hdue Ht HA|w0 t i due Hi Hdue Ht].
  - destruct (enter_cases uuid input (advance t w0))
      as [->|[(l' & k & Hl' & _ & _ & ->)
             |(l' & k & ws & Hnone & Hnew & _ & _ & _ & ->)]];
      [done| |]; simpl in *; rewrite HA in *.
    + split; [done|]. rewrite lookup_insert_ne; [done|].
      intros ->. apply Hne. by apply (Hinj B A l).
    + split; [by rewrite lookup_insert_ne|].
      rewrite lookup_insert_ne; [done|]. intros ->. congruence.
  - destruct (resume_spec k (pop i t w0)) as (Hheap & Hst & _).
    split; [by rewrite Hst|]. rewrite Hheap. simpl.
    rewrite lookup_insert_ne; [done|]. intros Heq.
    pose proof (proj1 (Forall_lookup _ _) Hown _ _ Hi) as Hk. simpl in Hk.
    apply Hne. rewrite <- HA. apply Hk. by rewrite Heq.
  - split; [|done]. simpl. by rewrite lookup_delete_ne.
Qed.

End Isolation.

(** X7. Sessions are isolated from one another.  From any world the
    event loop can get to, over any run in which no turn is for the
    session id [B] (no request resolving to it, no call under it
    resuming, no eviction of it), the id [B] goes on naming the same
    session object in the same state, whatever happens to the sessions
    of other ids. *)
Theorem session_isolation (B : string) (w w' : World) (l : loc) (s : Session.t) :
  reachable w →
  rtc (λ w1 w2, ∃ A, A ≠ B ∧ step_for A w1 w2) w w' →
  names w B l s →
  names w' B l s.
Proof.
  intros Hreach Hrun.
  assert (coherent w) as Hw by (by apply (coherent_steps init), coherent_init).
  clear Hreach. induction Hrun as [|w1 w2 w3 (A & Hne & Hstep) _ IH]; [done|].
  intros Hnames. apply IH.
  - by apply (coherent_step w1), Hw; apply (step_for_step A).
  - by apply (step_for_other A B w1).
Qed.

Lemma session_isolation_witness :
  let w' := (enter "u" (request quiet "B" (Some "t")) (advance 20 world_A)).1 in
  names w' "s" 1%positive (Session.mk "A" "Welcome" 1 0).
Proof.
  apply (session_isolation "s" world_A).
  - apply world_A_reachable.
  - apply rtc_once. exists "t". split; [congruence|].
    apply (for_request "t" world_A 20 "u" (request quiet "B" (Some "t"))).
    + vm_compute. congruence.
    + reflexivity.
  - split; vm_compute; reflexivity.
Defined.

(** ** A stream of awaited chunks *)

Section Stream.

Implicit Types (w : World) (l : loc) (s : Session.t) (k : Pending.t).

Lemma concat_snoc sep (l : list string) x :
  l ≠ [] → String.concat sep (l ++ [x]) = String.concat sep l +:+ sep +:+ x.
Proof.
  induction l as [|a [|b l] IH]; [done|done|]. intros _.
  change (a +:+ sep +:+ String.concat sep ((b :: l) ++ [x])
          = (a +:+ sep +:+ String.concat sep (b :: l)) +:+ sep +:+ x).
  rewrite IH by done. by rewrite !append_assoc.
Qed.

Lemma concat_empty sep (l : list string) :
  Forall (λ token, token ≠ "") l → String.concat sep l = "" → l = [].
Proof.
  destruct 1 as [|a l Ha _]; [done|].
  destruct l as [|b l]; simpl; [done|]. by destruct a.
Qed.

(** Appending as the handler does it is joining with single spaces. *)
Lemma join_snoc tokens token :
  (if decide (token = "") then join_tokens tokens
   else appended (join_tokens tokens) token)
  = join_tokens (tokens ++ [token]).
Proof.
  unfold join_tokens. rewrite filter_app.
  case_decide as Htok.
  - rewrite filter_cons_False by (by intros ?). by rewrite filter_nil, app_nil_r.
  - rewrite filter_cons_True, filter_nil by done.
    unfold appended. case_decide as Hempty.
    + apply concat_empty in Hempty as ->; [done|].
      apply Forall_forall. by intros x [? _]%list_elem_of_filter.
    + rewrite concat_snoc; [done|]. by intros Hnil; rewrite Hnil in Hempty.
Qed.

(** One awaited chunk, for a request that resolves to a session id
    which stands for [text] and [p] chunks. *)
Lemma awaited_chunk uuid chunk ws given sid w text p :
  chunkSize chunk ≠ 0%nat → ws ≠ "" →
  resolveSessionId given uuid = sid →
  tracks w sid ws text p →
  let token := processAudioChunk (audioData chunk) (p + 1) in
  let text' := if decide (token = "") then text else appended text token in
  ∃ w', transcribeMeetingChunk uuid (request chunk ws given) w
        = (w', inr (Result.mk text' sid
                      (shouldMarkAsFinal (audioData chunk) (p + 1))))
        ∧ tracks w' sid ws text' (p + 1).
Proof.
  intros Hsize Hws Hres Htracks token text'.
  destruct (enter_accepts uuid chunk ws given w) as (w1 & k & He);
    [done|done| |].
  { rewrite Hres. destruct Htracks as [(? & _)|(l & at' & Hn)]; [by left|].
    right. by exists l, (Session.mk ws text p at'). }
  pose proof (enter_suspended _ _ _ _ _ He)
    as (chunk' & ws' & wg & [= <-] & _ & [= <-] & _ & Hg & _ & Hk & Hw1).
  unfold request in Hg, Hk. cbn [session_id] in Hg, Hk. rewrite Hres in Hg, Hk.
  assert (∃ created, heap wg !!! Pending.session k = Session.mk ws text p created
                     ∧ transcriptionSessions wg !! sid = Some (Pending.session k))
    as (created & Hs & Hbound).
  { destruct Htracks as [(Hnone & -> & ->)|(l & at' & Hl & Hsl)].
    - destruct (getOrCreate_fresh _ _ _ _ _ Hnone Hg) as (_ & Hheap & Hst & _).
      exists (clock w). rewrite Hheap, Hst, lookup_total_insert_eq.
      split; [done|apply lookup_insert_eq].
    - rewrite (getOrCreate_found _ _ _ _ Hl) in Hg. injection Hg as <- <-.
      exists at'. by rewrite (lookup_total_correct _ _ _ Hsl). }
  rewrite Hs in Hk, Hw1. simpl in Hk, Hw1.
  unfold transcribeMeetingChunk. rewrite He.
  set (W := pop (length (timers w)) (clock w + 10) w1).
  assert (heap W !!! Pending.session k = Session.mk ws text (p + 1) created) as HW.
  { unfold W. rewrite Hw1. simpl. apply lookup_total_insert_eq. }
  pose proof (resume_spec k W) as Hspec.
  destruct (resume k W) as [w' r]. destruct Hspec as (Hheap & Hst & _ & _ & Hr).
  rewrite HW in Hheap, Hr. simpl in Hheap, Hst, Hr.
  rewrite token_trim in Hheap, Hr. rewrite Hk in Hheap, Hr. simpl in Hheap, Hr.
  fold token in Hheap, Hr.
  assert ((if Js.truthy token then appended text token else text) = text')
    as Htext.
  { unfold text'. case_decide as Ht.
    - by apply truthy_false in Ht as ->.
    - by apply truthy_true in Ht as ->. }
  rewrite Htext in Hheap, Hr.
  exists w'. split; [by rewrite Hr|].
  right. exists (Pending.session k), created. split.
  - rewrite Hst. unfold W. rewrite Hw1. simpl. done.
  - rewrite Hheap. apply lookup_insert_eq.
Qed.

Lemma awaited_stream_from uuid ws sid chunks :
  ws ≠ "" → sid ≠ "" →
  Forall (λ chunk, chunkSize chunk ≠ 0%nat) chunks →
  ∀ w tokens p,
    tracks w sid ws (join_tokens tokens) p →
    (awaitAll (stream uuid ws sid chunks) w).2
    = imap (λ i chunk,
              inr (Result.mk
                     (join_tokens (tokens ++ tokens_from (p + 1) (take (S i) chunks)))
                     sid
                     (shouldMarkAsFinal (audioData chunk) (p + Z.of_nat i + 1))))
           chunks
    ∧ tracks (awaitAll (stream uuid ws sid chunks) w).1 sid ws
             (join_tokens (tokens ++ tokens_from (p + 1) chunks))
             (p + Z.of_nat (length chunks)).
Proof.
  intros Hws Hsid Hall.
  assert (resolveSessionId (Some sid) uuid = sid) as Hres.
  { simpl. by apply truthy_true in Hsid as ->. }
  induction Hall as [|chunk chunks Hsize _ IH]; intros w tokens p Htracks.
  - simpl. by rewrite app_nil_r, Z.add_0_r.
  - destruct (awaited_chunk uuid chunk ws (Some sid) sid w _ p
                Hsize Hws Hres Htracks)
      as (w' & Hcall & Htracks').
    rewrite join_snoc in Hcall, Htracks'.
    specialize (IH w' _ _ Htracks') as [IHr IHw].
    unfold stream in *. cbn [map awaitAll]. rewrite Hcall.
    destruct (awaitAll _ w') as [w'' results]. simpl in IHr, IHw. simpl fst. simpl snd.
    split.
    + rewrite imap_cons, IHr. f_equal.
      * simpl. by rewrite Z.add_0_r.
      * apply imap_ext. intros i c _. simpl.
        rewrite <- app_assoc. simpl. do 3 f_equal. lia.
    + simpl tokens_from. rewrite <- app_assoc in IHw. simpl in IHw.
      simpl length. by replace (p + Z.of_nat (S (length chunks)))
        with (p + 1 + Z.of_nat (length chunks)) by lia.
Qed.

End Stream.

(** X8. A caller streams chunks, none of them empty, for one workspace
    under a session id the store does not have, awaiting each call and
    with no eviction firing in between.  Then every call succeeds under
    that id; the transcript returned for chunk number i is the non-empty
    tokens of chunks 1 to i, each classified in its own position, joined
    by single spaces; its finality is that of its bytes in position i;
    and in the end the id names a session of the workspace that holds
    the whole transcript and has counted every chunk. *)
Theorem awaited_stream (uuid ws sid : string) (chunks : list AudioChunk) (w : World) :
  ws ≠ "" → sid ≠ "" →
  Forall (λ chunk, chunkSize chunk ≠ 0%nat) chunks →
  transcriptionSessions w !! sid = None →
  (awaitAll (stream uuid ws sid chunks) w).2
  = imap (λ i chunk,
            inr (Result.mk (join_tokens (tokens_from 1 (take (S i) chunks))) sid
                           (shouldMarkAsFinal (audioData chunk) (Z.of_nat i + 1))))
         chunks
  ∧ (chunks ≠ [] →
     ∃ l created,
       names (awaitAll (stream uuid ws sid chunks) w).1 sid l
             (Session.mk ws (join_tokens (tokens_from 1 chunks))
                         (Z.of_nat (length chunks)) created)).
Proof.
  intros Hws Hsid Hall Hnone.
  destruct (awaited_stream_from uuid ws sid chunks Hws Hsid Hall w [] 0)
    as [Hr Hw]; [by left|].
  simpl in Hr, Hw. split; [done|].
  intros Hne. destruct Hw as [(_ & _ & Hlen)|(l & created & Hn)].
  - destruct chunks; [done|]. simpl in Hlen. lia.
  - by exists l, created.
Qed.

Lemma awaited_stream_witness :
  let chunks := [tone 100 Byte.x4b; tone 50 Byte.x80; tone 100 Byte.x78] in
  (awaitAll (stream "u" "A" "s" chunks) init).2
  = imap (λ i chunk,
            inr (Result.mk (join_tokens (tokens_from 1 (take (S i) chunks))) "s"
                           (shouldMarkAsFinal (audioData chunk) (Z.of_nat i + 1))))
         chunks
  ∧ (chunks ≠ [] →
     ∃ l created,
       names (awaitAll (stream "u" "A" "s" chunks) init).1 "s" l
             (Session.mk "A" (join_tokens (tokens_from 1 chunks))
                         (Z.of_nat (length chunks)) created)).
Proof.
  apply (awaited_stream "u" "A" "s"
           [tone 100 Byte.x4b; tone 50 Byte.x80; tone 100 Byte.x78] init).
  - congruence.
  - congruence.
  - repeat constructor; vm_compute; lia.
  - vm_compute. reflexivity.
Defined.

(** ** The chunks the test suite generates *)

Section Mock.

Lemma toUint8_value z : 0 ≤ z ≤ 255 → byte_value (toUint8 z) = z.
Proof.
  intros Hz. unfold toUint8, byte_value.
  rewrite Z.mod_small by lia.
  destruct (Byte.of_N (Z.to_N z)) as [b|] eqn:Hb.
  - apply Byte.to_of_N in Hb. simpl. lia.
  - apply Byte.of_N_None_iff in Hb. lia.
Qed.

Lemma mock_size draw size average :
  chunkSize (createMockAudioChunk draw size average) = size.
Proof. simpl. by rewrite length_map, length_seq. Qed.

Lemma mock_bytes draw size average :
  fair draw →
  Forall (λ b, Z.max 0 (Z.min 255 (average - 10)) ≤ byte_value b
               ≤ Z.max 0 (Z.min 255 (average + 9)))
         (audioData (createMockAudioChunk draw size average)).
Proof.
  intros Hfair. simpl. apply Forall_forall. intros b Hb.
  apply list_elem_of_fmap in Hb as (i & -> & _).
  specialize (Hfair i). rewrite toUint8_value by lia. lia.
Qed.

Lemma mock_nonempty draw size average :
  (0 < size)%nat → audioData (createMockAudioChunk draw size average) ≠ [].
Proof. destruct size; simpl; [lia|done]. Qed.

Lemma mock_loudest size average :
  Forall (λ b, byte_value b = Z.max 0 (Z.min 255 (average + 9)))
         (audioData (createMockAudioChunk (λ _, 19) size average)).
Proof.
  simpl. apply Forall_forall. intros b Hb.
  apply list_elem_of_fmap in Hb as (i & -> & _).
  rewrite toUint8_value by lia. lia.
Qed.

End Mock.

(** X9. Whatever the random draws, a chunk that the generator of the
    test suite makes for a size of at least 100 and an integer average
    [average] has all its bytes, and so its mean, within 10 below and 9
    above [average] (cut to 0..255).  So its token is settled for
    [average] up to 40, from 60 to 90, from 110 to 140 and from 160 on,
    which covers every average the tests use but 100. *)
Theorem mock_token_settled (draw : nat → Z) (size : nat) (average p : Z) :
  fair draw → (100 ≤ size)%nat →
  let bytes := audioData (createMockAudioChunk draw size average) in
  let token := processAudioChunk bytes p in
  (inject_Z (Z.max 0 (Z.min 255 (average - 10))) <= mean bytes)%Q
  ∧ (mean bytes <= inject_Z (Z.max 0 (Z.min 255 (average + 9))))%Q
  ∧ (average ≤ 40 → token = if decide (p = 1) then "Hello" else "and")
  ∧ (60 ≤ average ≤ 90 →
     token = if decide (p = 1) then "Welcome" else "everyone")
  ∧ (110 ≤ average ≤ 140 →
     token = if decide (p = 1) then "Good morning" else "to the meeting")
  ∧ (160 ≤ average →
     token = if decide (p = 1) then "Thank you" else "for joining us today").
Proof.
  intros Hfair Hsize data token.
  assert (data ≠ []) as Hne by (apply mock_nonempty; lia).
  pose proof (mean_between _ _ data Hne (mock_bytes draw size average Hfair))
    as [Hlo Hhi].
  split; [done|]. split; [done|].
  assert ((length data <? 100)%nat = false) as Hlen.
  { apply Nat.ltb_ge. unfold data.
    by rewrite chunkSize_audioData, mock_size. }
  assert ((p =? 1) = bool_decide (p = 1)) as Hp.
  { case_bool_decide; [by apply Z.eqb_eq|by apply Z.eqb_neq]. }
  assert (∀ a b : string, (if bool_decide (p = 1) then a else b)
                          = (if decide (p = 1) then a else b)) as Hif.
  { intros a b. by case_bool_decide; case_decide. }
  subst token. unfold processAudioChunk. rewrite Hlen, Hp, !Hif.
  fold data in Hlo, Hhi.
  assert (∀ c, Z.max 0 (Z.min 255 (average + 9)) < c →
               Js.lt (avgValue data) c = true) as Hbelow.
  { intros c Hc. apply lt_mean_true; [done|].
    eapply Qle_lt_trans; [exact Hhi|]. unfold Qlt, inject_Z. simpl. lia. }
  assert (∀ c, c ≤ Z.max 0 (Z.min 255 (average - 10)) →
               Js.lt (avgValue data) c = false) as Habove.
  { intros c Hc. apply lt_mean_false; [done|].
    eapply Qle_trans; [|exact Hlo]. unfold Qle, inject_Z. simpl. lia. }
  repeat split.
  - intros H. by rewrite (Hbelow 50) by lia.
  - intros H. by rewrite (Habove 50), (Hbelow 100) by lia.
  - intros H. by rewrite (Habove 50), (Habove 100), (Hbelow 150) by lia.
  - intros H. by rewrite (Habove 50), (Habove 100), (Habove 150) by lia.
Qed.

Lemma mock_token_settled_witness :
  let bytes := audioData (createMockAudioChunk (λ i, Z.of_nat i mod 20) 100 75) in
  let token := processAudioChunk bytes 1 in
  (inject_Z (Z.max 0 (Z.min 255 (75 - 10))) <= mean bytes)%Q
  ∧ (mean bytes <= inject_Z (Z.max 0 (Z.min 255 (75 + 9))))%Q
  ∧ (75 ≤ 40 → token = if decide (1 = 1) then "Hello" else "and")
  ∧ (60 ≤ 75 ≤ 90 →
     token = if decide (1 = 1) then "Welcome" else "everyone")
  ∧ (110 ≤ 75 ≤ 140 →
     token = if decide (1 = 1) then "Good morning" else "to the meeting")
  ∧ (160 ≤ 75 →
     token = if decide (1 = 1) then "Thank you" else "for joining us today").
Proof.
  apply (mock_token_settled (λ i, Z.of_nat i mod 20) 100 75 1).
  - intros i. apply Z.mod_pos_bound. lia.
  - lia.
Defined.

(** X10. For an integer [average], a chunk of the generator is sure to
    be silent, that is final in a position below 5 whatever the random
    draws, exactly when [average] is at most 0.  For the average 5 that
    the silent-audio test uses, some draws give a mean of 10 or more and
    a chunk that is not final. *)
Theorem mock_silence (size : nat) (average n : Z) :
  (0 < size)%nat → n < 5 →
  (∀ draw, fair draw →
     shouldMarkAsFinal (audioData (createMockAudioChunk draw size average)) n
     = true)
  ↔ average ≤ 0.
Proof.
  intros Hsize Hn. split.
  - intros Hall. destruct (Z.le_gt_cases average 0) as [|Hpos]; [done|].
    assert (fair (λ _ : nat, 19)) as Hfair by (intros i; lia).
    specialize (Hall (λ _, 19) Hfair).
    apply shouldMarkAsFinal_iff in Hall; [|by apply mock_nonempty].
    destruct Hall as [?|Hlt]; [lia|]. exfalso.
    assert (Forall (λ b, 10 ≤ byte_value b ≤ 255)
              (audioData (createMockAudioChunk (λ _, 19) size average)))
      as Hloud.
    { eapply Forall_impl; [apply mock_loudest|]. simpl. intros b ->. lia. }
    apply (mean_between 10 255) in Hloud as [Hlo _]; [|by apply mock_nonempty].
    by apply Qle_not_lt in Hlo.
  - intros Hle draw Hfair. apply shouldMarkAsFinal_iff; [by apply mock_nonempty|].
    right.
    pose proof (mean_between _ _ _ (mock_nonempty draw size average Hsize)
                  (mock_bytes draw size average Hfair)) as [_ Hhi].
    eapply Qle_lt_trans; [exact Hhi|]. unfold Qlt, inject_Z. simpl. lia.
Qed.

Lemma mock_silence_witness :
  (∀ draw, fair draw →
     shouldMarkAsFinal (audioData (createMockAudioChunk draw 1000 5)) 1 = true)
  ↔ 5 ≤ 0.
Proof.
  apply (mock_silence 1000 5 1); lia.
Defined.

(** ** Identifiers, rejections, timers *)



(** X12. Which way a call goes, in a world without dangling references.
    The three failures and success exclude one another and are decided
    in this order: the audio message exactly for an absent or empty
    fragment; else the workspace message exactly for an absent or empty
    workspace id; else the mismatch message exactly when the resolved id
    names a session of another workspace; else the call is accepted, and
    then the resolved id was free or named a session of the workspace
    given. *)
Theorem rejection_table (uuid : string) (input : TranscribeChunkInput) (w : World) :
  well_formed w →
  let sid := resolveSessionId (session_id input) uuid in
  let no_audio :=
    audio_chunk input = None
    ∨ ∃ chunk, audio_chunk input = Some chunk ∧ chunkSize chunk = 0%nat in
  let no_workspace := workspace_id input = None ∨ workspace_id input = Some "" in
  match (enter uuid input w).2 with
  | inl e =>
      (message e = "Audio chunk is required and cannot be empty" ∧ no_audio)
      ∨ (message e = "Workspace ID is required" ∧ ¬ no_audio ∧ no_workspace)
      ∨ (message e = "Session workspace_id mismatch"
         ∧ ¬ no_audio ∧ ¬ no_workspace
         ∧ ∃ l s, names w sid l s
                  ∧ workspace_id input ≠ Some (Session.workspace_id s))
  | inr k =>
      ¬ no_audio ∧ ¬ no_workspace
      ∧ (transcriptionSessions w !! sid = None
         ∨ ∃ l s, names w sid l s
                  ∧ workspace_id input = Some (Session.workspace_id s))
  end.
Proof.
  intros [Hstore _] sid no_audio no_workspace. subst no_audio no_workspace.
  unfold enter. destruct (audio_chunk input) as [chunk|] eqn:Hin.
  2:{ simpl. left. split; [done|by left]. }
  destruct (chunkSize chunk =? 0)%nat eqn:Hsize.
  { apply Nat.eqb_eq in Hsize. simpl. left. split; [done|]. right. by exists chunk. }
  apply Nat.eqb_neq in Hsize.
  assert (¬ (Some chunk = None
             ∨ ∃ c, Some chunk = Some c ∧ chunkSize c = 0%nat)) as Haudio.
  { intros [?|(c & [= <-] & ?)]; done. }
  destruct (workspace_id input) as [ws|] eqn:Hw.
  2:{ simpl. right. left. split; [done|]. split; [done|by left]. }
  destruct (Js.truthy ws) eqn:Hws; simpl.
  2:{ apply truthy_false in Hws as ->. right. left.
      split; [done|]. split; [done|by right]. }
  apply truthy_true in Hws.
  assert (¬ (Some ws = None ∨ Some ws = Some "")) as Hwork.
  { intros [?|[= ?]]; done. }
  fold sid. unfold getOrCreate.
  destruct (transcriptionSessions w !! sid) as [l|] eqn:Hl.
  - pose proof (Hstore _ _ Hl) as Hdom. apply elem_of_dom in Hdom as [s Hs].
    rewrite (lookup_total_correct _ _ _ Hs).
    destruct (String.eqb_spec (Session.workspace_id s) ws) as [Heq|Hne]; simpl.
    + split; [done|]. split; [done|]. right. exists l, s.
      split; [done|]. by rewrite Heq.
    + right. right. split; [done|]. split; [done|]. split; [done|].
      exists l, s. split; [done|]. congruence.
  - cbn [heap]. rewrite lookup_total_insert_eq. simpl.
    rewrite String.eqb_refl. simpl. split; [done|]. split; [done|]. by left.
Qed.

Lemma rejection_table_witness :
  let input := request (tone 100 Byte.x4b) "B" (Some "s") in
  let sid := resolveSessionId (session_id input) "u" in
  let no_audio :=
    audio_chunk input = None
    ∨ ∃ chunk, audio_chunk input = Some chunk ∧ chunkSize chunk = 0%nat in
  let no_workspace := workspace_id input = None ∨ workspace_id input = Some "" in
  match (enter "u" input world_A).2 with
  | inl e =>
      (message e = "Audio chunk is required and cannot be empty" ∧ no_audio)
      ∨ (message e = "Workspace ID is required" ∧ ¬ no_audio ∧ no_workspace)
      ∨ (message e = "Session workspace_id mismatch"
         ∧ ¬ no_audio ∧ ¬ no_workspace
         ∧ ∃ l s, names world_A sid l s
                  ∧ workspace_id input ≠ Some (Session.workspace_id s))
  | inr k =>
      ¬ no_audio ∧ ¬ no_workspace
      ∧ (transcriptionSessions world_A !! sid = None
         ∨ ∃ l s, names world_A sid l s
                  ∧ workspace_id input = Some (Session.workspace_id s))
  end.
Proof.
  apply (rejection_table "u" (request (tone 100 Byte.x4b) "B" (Some "s")) world_A).
  apply (well_formed_steps init); [apply world_A_reachable|].
  apply well_formed_init.
Defined.

(** X13. No timer is ever cancelled.  A turn of the event loop takes
    off the timer list at most the one timer it fires, and sets at most
    one new timer: a resumption due 10 ms, or an eviction due 5000 ms,
    after the time of the turn.  An eviction once scheduled stays
    pending, whatever chunks its session gets meanwhile, until it
    fires. *)
Theorem timers_never_cancelled (w w' : World) :
  step w w' →
  ∃ added,
    (length added ≤ 1)%nat
    ∧ Forall (λ timer, match timer.2 with
                       | Resume _ => timer.1 = clock w' + 10
                       | Evict _ => timer.1 = clock w' + 5000
                       end) added
    ∧ (timers w' = timers w ++ added
       ∨ ∃ i, is_Some (timers w !! i)
              ∧ timers w' = delete i (timers w) ++ added).
Proof.
  intros [w0 t uuid input Ht|w0 t i due k Hi _ Ht|w0 t i due sid Hi Hdue Ht].
  - destruct (enter_cases uuid input (advance t w0))
      as [->|[(l & k & _ & _ & _ & ->)|(l & k & ws & _ & _ & _ & _ & _ & ->)]].
    + exists []. split; [simpl; lia|]. split; [done|]. left. simpl.
      by rewrite app_nil_r.
    + exists [(t + 10, Resume k)]. split; [simpl; lia|].
      split; [by repeat constructor|]. by left.
    + exists [(t + 10, Resume k)]. split; [simpl; lia|].
      split; [by repeat constructor|]. by left.
  - destruct (resume_spec k (pop i t w0)) as (_ & _ & Hc & Htimers & _).
    rewrite Htimers, Hc. simpl. destruct (shouldMarkAsFinal _ _).
    + exists [(t + 5000, Evict (Pending.sessionId k))]. split; [simpl; lia|].
      split; [by repeat constructor|]. right. by exists i.
    + exists []. split; [simpl; lia|]. split; [done|]. right. exists i.
      by rewrite app_nil_r.
  - exists []. split; [simpl; lia|]. split; [done|]. right. exists i.
    simpl. by rewrite app_nil_r.
Qed.

Lemma timers_never_cancelled_witness :
  ∃ added,
    (length added ≤ 1)%nat
    ∧ Forall (λ timer, match timer.2 with
                       | Resume _ => timer.1 = clock world_evicted + 10
                       | Evict _ => timer.1 = clock world_evicted + 5000
                       end) added
    ∧ (timers world_evicted = timers world_late ++ added
       ∨ ∃ i, is_Some (timers world_late !! i)
              ∧ timers world_evicted = delete i (timers world_late) ++ added).
Proof.
  apply (timers_never_cancelled world_late world_evicted).
  apply (step_evict world_late 5010 0 5010 "s").
  - vm_compute. reflexivity.
  - lia.
  - vm_compute. congruence.
Defined.

(** X14. On an array of no bytes, which the handler never passes on but
    the two helpers accept, nothing throws: the mean is [NaN], every
    comparison with it is false, the classifier returns the empty token
    and the finality check is decided by the chunk count alone. *)
Theorem empty_array_edge (p n : Z) :
  avgValue [] = Js.NaN
  ∧ processAudioChunk [] p = ""
  ∧ (shouldMarkAsFinal [] n = true ↔ 5 ≤ n).
Proof.
  split; [done|]. split; [done|]. unfold shouldMarkAsFinal. simpl.
  destruct (5 <=? n) eqn:Hn.
  - by apply Z.leb_le in Hn.
  - apply Z.leb_gt in Hn. split; [done|lia].
Qed.
